(** * Field-error accumulation: a shallow embedding of [apis/field_error.go]

    The Go type [*FieldError] is embedded as [option FieldError] ([None] is the
    nil pointer), Go strings as [string] (a sequence of bytes), slices as
    lists where the code copies them, the unexported
    [errors map[string]FieldError] as an association list, and a run-time
    panic as the [Panic] outcome of a small error monad.  [merge], which
    appends to a slice it was given, works on slice headers and a memory of
    arrays. *)

From Stdlib Require Import String Ascii List Bool Arith ZArith Lia.
From Stdlib Require Import Permutation Sorted DecimalString OrderedTypeEx.
Import ListNotations.

Local Open Scope string_scope.
Local Open Scope list_scope.

(* ================================================================== *)
(** ** The pieces of the Go standard library the code calls *)

Module GoStr.

(** The line feed that Go writes as ["\n"]. *)
Definition nl : string := String (ascii_of_nat 10) EmptyString.

(** [strings.Join(elems, sep)]. *)
Fixpoint Join (elems : list string) (sep : string) : string :=
  match elems with
  | [] => ""
  | e :: rest =>
      match rest with
      | [] => e
      | _ :: _ => e ++ sep ++ Join rest sep
      end
  end.

(** [strings.Split(s, sep)] for a separator of one byte, the only way the
    code calls it: always at least one piece, one more than the number of
    separators in [s]. *)
Fixpoint Split (s : string) (sep : ascii) : list string :=
  match s with
  | EmptyString => [EmptyString]
  | String c s' =>
      if Ascii.eqb c sep then EmptyString :: Split s' sep
      else match Split s' sep with
           | [] => [String c EmptyString]
           | piece :: pieces => String c piece :: pieces
           end
  end.

(** [strings.HasPrefix(s, p)]. *)
Definition HasPrefix (s p : string) : bool := String.prefix p s.

(** [strings.HasSuffix(s, suffix)]: some tail of [s] is [suffix]. *)
Fixpoint HasSuffix (s suffix : string) : bool :=
  String.eqb s suffix ||
  match s with
  | EmptyString => false
  | String _ s' => HasSuffix s' suffix
  end.

(** The verb [%d] of [fmt.Sprintf] on an [int]. *)
Definition itoa (i : Z) : string := NilZero.string_of_int (Z.to_int i).

(** The double quote and the backslash, by their codes. *)
Definition dquote : ascii := ascii_of_nat 34.
Definition backslash : ascii := ascii_of_nat 92.

(** [const lowerhex = "0123456789abcdef"] of [strconv]: [lowerhex[n]] for
    [n < 16]. *)
Definition lowerhex (n : N) : ascii :=
  if (n <? 10)%N then ascii_of_N (48 + n) else ascii_of_N (87 + n).

(** [byte(n)]: the low eight bits. *)
Definition byte (n : N) : ascii := ascii_of_N (n mod 256).

(** [s[i]], used where [i < len(s)]. *)
Definition byte_at (s : string) (i : nat) : N :=
  match String.get i s with
  | Some c => N_of_ascii c
  | None => 0%N
  end.

(** *** Package [unicode/utf8]

    A rune is an [N]: [DecodeRuneInString] returns no negative rune. *)

Definition RuneError : N := 0xFFFD%N.
Definition RuneSelf : N := 0x80%N.
Definition MaxRune : N := 0x10FFFF%N.
Definition surrogateMin : N := 0xD800%N.
Definition surrogateMax : N := 0xDFFF%N.

Definition maskx : N := 0x3F%N.
Definition mask2 : N := 0x1F%N.
Definition mask3 : N := 0x0F%N.
Definition mask4 : N := 0x07%N.

Definition rune1Max : N := 0x7F%N.
Definition rune2Max : N := 0x7FF%N.
Definition rune3Max : N := 0xFFFF%N.

(** The lowest and the highest continuation byte. *)
Definition locb : N := 0x80%N.
Definition hicb : N := 0xBF%N.

(** The entries of the table [first]: [xx] for a byte that starts no rune,
    [as_] for ASCII, and for the others the index of the accept range in the
    high four bits and the size in the low ones. *)
Definition xx : N := 0xF1%N.
Definition as_ : N := 0xF0%N.
Definition s1 : N := 0x02%N.
Definition s2 : N := 0x13%N.
Definition s3 : N := 0x03%N.
Definition s4 : N := 0x23%N.
Definition s5 : N := 0x34%N.
Definition s6 : N := 0x04%N.
Definition s7 : N := 0x44%N.

(** [first[b]], the information of [utf8] on the first byte of a rune. *)
Definition first (b : N) : N :=
  if (b <? 0x80)%N then as_
  else if (b <? 0xC2)%N then xx
  else if (b <? 0xE0)%N then s1
  else if (b =? 0xE0)%N then s2
  else if (b <? 0xED)%N then s3
  else if (b =? 0xED)%N then s4
  else if (b <? 0xF0)%N then s3
  else if (b =? 0xF0)%N then s5
  else if (b <? 0xF4)%N then s6
  else if (b =? 0xF4)%N then s7
  else xx.

(** [acceptRanges[i]]: the lowest and the highest second byte. *)
Definition acceptRanges (i : N) : N * N :=
  if (i =? 0)%N then (locb, hicb)
  else if (i =? 1)%N then (0xA0%N, hicb)
  else if (i =? 2)%N then (locb, 0x9F%N)
  else if (i =? 3)%N then (0x90%N, hicb)
  else if (i =? 4)%N then (locb, 0x8F%N)
  else (0%N, 0%N).

(** [func DecodeRuneInString(s string) (rune, int)].  For [x >= as] the code
    returns [rune(s[0])&^mask | RuneError&mask] with
    [mask := rune(x) << 31 >> 31], which is all ones when the lowest bit of
    [x] is set and zero otherwise. *)
Definition DecodeRuneInString (s : string) : N * nat :=
  let n := String.length s in
  if (n <? 1)%nat then (RuneError, 0%nat) else
  let s0 := byte_at s 0 in
  let x := first s0 in
  if (as_ <=? x)%N then
    ((if N.testbit x 0 then RuneError else s0), 1%nat)
  else
  let sz := N.to_nat (N.land x 7) in
  let accept := acceptRanges (N.shiftr x 4) in
  if (n <? sz)%nat then (RuneError, 1%nat) else
  let s1 := byte_at s 1 in
  if (s1 <? fst accept)%N || (snd accept <? s1)%N then (RuneError, 1%nat) else
  if (sz <=? 2)%nat then
    (N.lor (N.shiftl (N.land s0 mask2) 6) (N.land s1 maskx), 2%nat)
  else
  let s2 := byte_at s 2 in
  if (s2 <? locb)%N || (hicb <? s2)%N then (RuneError, 1%nat) else
  if (sz <=? 3)%nat then
    (N.lor (N.lor (N.shiftl (N.land s0 mask3) 12)
                  (N.shiftl (N.land s1 maskx) 6))
           (N.land s2 maskx), 3%nat)
  else
  let s3 := byte_at s 3 in
  if (s3 <? locb)%N || (hicb <? s3)%N then (RuneError, 1%nat) else
  (N.lor (N.lor (N.lor (N.shiftl (N.land s0 mask4) 18)
                       (N.shiftl (N.land s1 maskx) 12))
                (N.shiftl (N.land s2 maskx) 6))
         (N.land s3 maskx), 4%nat).

(** [func ValidRune(r rune) bool]. *)
Definition ValidRune (r : N) : bool :=
  if (r <? surrogateMin)%N then true
  else if (surrogateMax <? r)%N && (r <=? MaxRune)%N then true
  else false.

(** The three bytes [t3|byte(r>>12), tx|byte(r>>6)&maskx, tx|byte(r)&maskx]. *)
Definition encode3 (r : N) : string :=
  String (byte (N.lor 0xE0 (N.shiftr r 12 mod 256)))
    (String (byte (N.lor 0x80 (N.land (N.shiftr r 6 mod 256) maskx)))
       (String (byte (N.lor 0x80 (N.land (r mod 256) maskx))) "")).

(** [func AppendRune(p []byte, r rune) []byte]: the bytes appended. *)
Definition AppendRune (r : N) : string :=
  if (r <=? rune1Max)%N then String (byte r) ""
  else if (r <=? rune2Max)%N then
    String (byte (N.lor 0xC0 (N.shiftr r 6 mod 256)))
      (String (byte (N.lor 0x80 (N.land (r mod 256) maskx))) "")
  else if (MaxRune <? r)%N || ((surrogateMin <=? r)%N && (r <=? surrogateMax)%N)
  then encode3 RuneError
  else if (r <=? rune3Max)%N then encode3 r
  else
    String (byte (N.lor 0xF0 (N.shiftr r 18 mod 256)))
      (String (byte (N.lor 0x80 (N.land (N.shiftr r 12 mod 256) maskx)))
         (String (byte (N.lor 0x80 (N.land (N.shiftr r 6 mod 256) maskx)))
            (String (byte (N.lor 0x80 (N.land (r mod 256) maskx))) ""))).

(** *** Package [strconv] *)

(** What the tables [isPrint16], [isNotPrint16], [isPrint32] and
    [isNotPrint32] of [strconv] say of a rune above 0xFF.  The tables are data
    of the Go release; the code of this repository reads them through [%q]
    only, and what is proved holds for every content of them. *)
Class GoUnicode : Type := {
  IsPrint_tables : N -> bool
}.

(** [func IsPrint(r rune) bool] of [strconv]: the fast check for Latin-1,
    then the tables. *)
Definition IsPrint {uc : GoUnicode} (r : N) : bool :=
  if (r <=? 0xFF)%N then
    if (0x20 <=? r)%N && (r <=? 0x7E)%N then true
    else if (0xA1 <=? r)%N && (r <=? 0xFF)%N then negb (r =? 0xAD)%N
    else false
  else IsPrint_tables r.

(** The digits [lowerhex[r>>uint(s)&0xF]] for [s] from [4 * (n - 1)] down to
    0 in steps of 4. *)
Fixpoint hex_digits (n : nat) (r : N) : string :=
  match n with
  | O => ""
  | S n' =>
      String (lowerhex (N.land (N.shiftr r (4 * N.of_nat n')) 0xF))
             (hex_digits n' r)
  end.

(** [appendEscapedRune(buf, r, quote, false, false)] with the double quote
    for [quote]: the bytes appended. *)
Definition appendEscapedRune {uc : GoUnicode} (r : N) : string :=
  if (r =? 34)%N || (r =? 92)%N then String backslash (String (byte r) "")
  else if IsPrint r then AppendRune r
  else if (r =? 7)%N then String backslash "a"
  else if (r =? 8)%N then String backslash "b"
  else if (r =? 12)%N then String backslash "f"
  else if (r =? 10)%N then String backslash "n"
  else if (r =? 13)%N then String backslash "r"
  else if (r =? 9)%N then String backslash "t"
  else if (r =? 11)%N then String backslash "v"
  else if (r <? 32)%N || (r =? 0x7F)%N then
    String backslash
      (String "x" (String (lowerhex (N.shiftr (r mod 256) 4))
                          (String (lowerhex (N.land (r mod 256) 0xF)) "")))
  else if negb (ValidRune r) then
    String backslash (String "u" (hex_digits 4 0xFFFD))
  else if (r <? 0x10000)%N then
    String backslash (String "u" (hex_digits 4 r))
  else String backslash (String "U" (hex_digits 8 r)).

(** The loop of [appendQuotedWith(buf, s, quote, false, false)]:
    [for width := 0; len(s) > 0; s = s[width:]].  [skip] counts the bytes of
    the rune read last that are still to be stepped over. *)
Fixpoint quote_loop {uc : GoUnicode} (skip : nat) (s : string) : string :=
  match s with
  | EmptyString => EmptyString
  | String c s' =>
      match skip with
      | S skip' => quote_loop skip' s'
      | O =>
          let s0 := N_of_ascii c in
          let (r, width) :=
            if (RuneSelf <=? s0)%N then DecodeRuneInString s
            else (s0, 1%nat) in
          ((if (width =? 1)%nat && (r =? RuneError)%N then
              String backslash
                (String "x" (String (lowerhex (N.shiftr s0 4))
                                    (String (lowerhex (N.land s0 0xF)) "")))
            else appendEscapedRune r)
           ++ quote_loop (width - 1) s')%string
      end
  end.

(** [fmt.Sprintf("%q", s)] on a string, which is [strconv.Quote(s)]. *)
Definition Quote {uc : GoUnicode} (s : string) : string :=
  String dquote (quote_loop 0 s ++ String dquote "").

(** The bytes [%q] prints as they are whatever precedes and follows them:
    printable ASCII other than the double quote and the backslash. *)
Definition plain_byte (c : ascii) : bool :=
  let n := N_of_ascii c in
  (32 <=? n)%N && (n <? 127)%N && negb (n =? 34)%N && negb (n =? 92)%N.

Fixpoint plain (s : string) : bool :=
  match s with
  | EmptyString => true
  | String c s' => plain_byte c && plain s'
  end.

End GoStr.

(** A table that holds no rune: it stands for the tables of [strconv] where
    a closed example prints bytes for which [IsPrint] does not open them. *)
Definition no_table : GoStr.GoUnicode :=
  {| GoStr.IsPrint_tables := fun _ => false |}.

(* ================================================================== *)
(** ** Panics *)

Inductive panic : Type :=
| NilPointerDereference   (* a field read through a nil pointer *)
| NilMapAssignment.       (* "assignment to entry in nil map" *)

Inductive result (A : Type) : Type :=
| Ok (a : A)
| Panic (p : panic).

Arguments Ok {A} a.
Arguments Panic {A} p.

Definition bind {A B : Type} (r : result A) (k : A -> result B) : result B :=
  match r with
  | Ok a => k a
  | Panic p => Panic p
  end.

Notation "x <- r ;; k" := (bind r (fun x => k))
  (at level 61, r at next level, right associativity).

(* ================================================================== *)
(** ** What Go leaves open: the order of [range] over a map, and [sort.Slice]

    [range] visits the entries of a map in an unspecified order, and
    [sort.Slice] is not stable.  The embedding is parametric in both: every
    general theorem below holds for each admissible choice. *)

Class GoRuntime : Type := {
  (** the order in which a [range] statement visits a map *)
  map_range : forall {A : Type}, list (string * A) -> list (string * A);
  map_range_perm : forall (A : Type) (m : list (string * A)),
      Permutation (map_range m) m;
  (** [sort.Slice(xs, func(i, j int) bool { return k(xs[i]) < k(xs[j]) })] *)
  sort_Slice : forall {A : Type}, (A -> string) -> list A -> list A;
  sort_Slice_perm : forall (A : Type) (k : A -> string) (xs : list A),
      Permutation (sort_Slice k xs) xs;
  sort_Slice_sorted : forall (A : Type) (k : A -> string) (xs : list A),
      StronglySorted (fun a b => String.ltb (k b) (k a) = false) (sort_Slice k xs)
}.

(** [a <= b] on Go strings, as [sort.Slice] sees it: [b < a] is false. *)
Definition str_le (a b : string) : Prop := String.ltb b a = false.

Definition key_le {A : Type} (k : A -> string) (a b : A) : Prop :=
  str_le (k a) (k b).

(** Insertion sort on the key: one admissible [sort.Slice]. *)
Fixpoint insert_by {A : Type} (k : A -> string) (x : A) (xs : list A) : list A :=
  match xs with
  | [] => [x]
  | y :: ys => if String.ltb (k x) (k y) then x :: y :: ys
               else y :: insert_by k x ys
  end.

Fixpoint isort_by {A : Type} (k : A -> string) (xs : list A) : list A :=
  match xs with
  | [] => []
  | x :: xs' => insert_by k x (isort_by k xs')
  end.

(* ================================================================== *)
(** ** The data model *)

(** [const CurrentField = ""]. *)
Definition CurrentField : string := "".

(** [type FieldError struct { Message; Paths; Details; errors }].  The map
    [errors] is an association list, in the order in which a [range] over it
    visits its entries.  A nil map and an empty one read alike ([len], lookup,
    [range]); they differ on assignment only, and the one map the code assigns
    to while it may be nil is the local one of [Also], modelled there. *)
#[warnings="-register-all"]
Inductive FieldError : Type := mkFieldError {
  Message : string;
  Paths : list string;
  Details : string;
  errors : list (string * FieldError)
}.

(** The zero value [FieldError{}]. *)
Definition zeroFieldError : FieldError := mkFieldError "" [] "" [].

(** An accumulator that holds nothing but one zero value under some key. *)
Definition junk (k : string) : FieldError :=
  mkFieldError "" [] "" [(k, zeroFieldError)].

(** [e.Paths = ps] on a copy [e] of a struct. *)
Definition set_Paths (e : FieldError) (ps : list string) : FieldError :=
  mkFieldError (Message e) ps (Details e) (errors e).

(** A [map[string]FieldError] that is not nil. *)
Definition gomap : Type := list (string * FieldError).

(** [m[k]] read from a map: the entry, or nothing when [k] is absent. *)
Fixpoint map_get {A : Type} (k : string) (m : list (string * A)) : option A :=
  match m with
  | [] => None
  | (k', v) :: m' => if String.eqb k k' then Some v else map_get k m'
  end.

(** [m[k] = v] on a map that is not nil: replaces the entry of [k], or adds one. *)
Fixpoint map_set {A : Type} (k : string) (v : A) (m : list (string * A))
  : list (string * A) :=
  match m with
  | [] => [(k, v)]
  | (k', v') :: m' =>
      if String.eqb k k' then (k, v) :: m' else (k', v') :: map_set k v m'
  end.

(** A map variable that may hold the nil map ([None]). *)
Definition nilable_map : Type := option gomap.

(** [v, ok := m[k]] on a map that may be nil: reading a nil map finds nothing. *)
Definition nilable_get (k : string) (m : nilable_map) : option FieldError :=
  match m with
  | None => None
  | Some entries => map_get k entries
  end.

(** [m[k] = v] on a map that may be nil: assigning to a nil map panics. *)
Definition nilable_set (k : string) (v : FieldError) (m : nilable_map)
  : result nilable_map :=
  match m with
  | None => Panic NilMapAssignment
  | Some entries => Ok (Some (map_set k v entries))
  end.

(** [len(m)] on a map that may be nil. *)
Definition nilable_len (m : nilable_map) : nat :=
  match m with
  | None => 0
  | Some entries => List.length entries
  end.

(* ================================================================== *)
(** ** Paths *)

(** [func containsString(slice []string, s string) bool]. *)
Fixpoint containsString (slice : list string) (s : string) : bool :=
  match slice with
  | [] => false
  | item :: rest => if String.eqb item s then true else containsString rest s
  end.

(** [func mergePaths(a, b []string) []string]: the loop over [b] appends to
    [newPaths], which starts as a copy of [a]. *)
Definition mergePaths (a b : list string) : list string :=
  fold_left
    (fun newPaths p => if containsString newPaths p then newPaths
                       else newPaths ++ [p])
    b a.

(** [func asIndex(index int) string]. *)
Definition asIndex (index : Z) : string := "[" ++ GoStr.itoa index ++ "]".

(** [func asKey(key string) string]. *)
Definition asKey (key : string) : string := "[" ++ key ++ "]".

(** [func isIndex(part string) bool]. *)
Definition isIndex (part : string) : bool :=
  GoStr.HasPrefix part "[" && GoStr.HasSuffix part "]".

(** [newPath[len(newPath)-1] = s], used where [len(newPath) > 0]. *)
Definition set_last (newPath : list string) (s : string) : list string :=
  removelast newPath ++ [s].

(** The body of the inner loop of [flatten] for one piece [p]. *)
Definition flatten_piece (newPath : list string) (p : string) : list string :=
  if String.eqb p CurrentField then newPath
  else if (0 <? List.length newPath)%nat && isIndex p then
    set_last newPath (List.last newPath "" ++ p)
  else newPath ++ [p].

(** The body of the outer loop of [flatten] for one element of [path]. *)
Definition flatten_part (newPath : list string) (part : string) : list string :=
  fold_left flatten_piece (GoStr.Split part ".") newPath.

(** [func flatten(path []string) string]. *)
Definition flatten (path : list string) : string :=
  GoStr.Join (fold_left flatten_part path []) ".".

(** [flatten] as its description has it.  The pieces: every fragment split
    on dots, without the empty pieces. *)
Definition flatten_pieces (path : list string) : list string :=
  filter (fun p => negb (String.eqb p CurrentField))
         (concat (map (fun part => GoStr.Split part ".") path)).

(** A piece after the first: glued to what precedes it when it is an index
    or key marker, set after a dot otherwise. *)
Definition flatten_glue (p : string) : string :=
  if isIndex p then p else "." ++ p.

(** The first piece as it is, then every later piece glued or dotted. *)
Definition flatten_spec (path : list string) : string :=
  match flatten_pieces path with
  | [] => ""
  | first :: later => first ++ fold_right String.append "" (map flatten_glue later)
  end.

(* ================================================================== *)
(** ** The accumulator *)

(** [func key(err *FieldError) string]: reads [err.Message] and [err.Details]
    through the pointer, so a nil [err] panics. *)
Definition key (err : option FieldError) : result string :=
  match err with
  | None => Panic NilPointerDereference
  | Some e => Ok (Message e ++ "-" ++ Details e)%string
  end.

(** [key(&err)] for a struct value [err]. *)
Definition key_of (err : FieldError) : string :=
  Message err ++ "-" ++ Details err.

(** The body of the inner loop of [getNormalizedErrors]: the entry [(k, err)]
    of a nested error is merged into, or added to, [errors]. *)
Definition normalize_entry (errors : gomap) (entry : string * FieldError) : gomap :=
  let (k, err) := entry in
  match map_get k errors with
  | Some v => map_set k (set_Paths v (mergePaths (Paths v) (Paths err))) errors
  | None => map_set k err errors
  end.

(** What [getNormalizedErrors] puts into the fresh map before its loop. *)
Definition normalize_leaf (fe : FieldError) : gomap :=
  if String.eqb (Message fe) "" then []
  else
    let err := mkFieldError (Message fe) (Paths fe) (Details fe) [] in
    map_set (key_of err) err [].

Section Accumulator.

Context {rt : GoRuntime}.

(** [func (fe *FieldError) getNormalizedErrors() map[string]FieldError] on a
    receiver that is not nil. *)
Fixpoint getNormalizedErrors (fe : FieldError) : gomap :=
  (fix collect (nested : list (string * FieldError)) (errors : gomap) : gomap :=
     match nested with
     | [] => errors
     | (_, e) :: nested' =>
         collect nested'
           (fold_left normalize_entry (map_range (getNormalizedErrors e)) errors)
     end) (errors fe) (normalize_leaf fe).

(** The loop of [getNormalizedErrors] over the nested errors, on its own. *)
Fixpoint collect_nested (nested : list (string * FieldError)) (errors : gomap)
  : gomap :=
  match nested with
  | [] => errors
  | (_, e) :: nested' =>
      collect_nested nested'
        (fold_left normalize_entry (map_range (getNormalizedErrors e)) errors)
  end.

(** [getNormalizedErrors] on any receiver: the nil map for the nil pointer. *)
Definition getNormalizedErrors_ptr (fe : option FieldError) : nilable_map :=
  match fe with
  | None => None
  | Some fe' => Some (getNormalizedErrors fe')
  end.

(** The body of the loop of [Also] for one argument [e], on the map
    [newErrs.errors]. *)
Definition Also_arg (newErrs_errors : nilable_map) (e : option FieldError)
  : result nilable_map :=
  k <- key e ;;
  match nilable_get k newErrs_errors with
  | Some err =>
      let newErr := err in
      nilable_set k (set_Paths newErr (mergePaths (Paths newErr) (Paths err)))
                  newErrs_errors
  | None =>
      (* [err] is the zero value here *)
      nilable_set k zeroFieldError newErrs_errors
  end.

Fixpoint Also_args (newErrs_errors : nilable_map) (errs : list (option FieldError))
  : result nilable_map :=
  match errs with
  | [] => Ok newErrs_errors
  | e :: errs' =>
      m <- Also_arg newErrs_errors e ;;
      Also_args m errs'
  end.

(** [func (fe *FieldError) Also(errs ...*FieldError) *FieldError].  The map
    of the accumulator returned is stored in the order in which a later
    [range] visits it. *)
Definition Also (fe : option FieldError) (errs : list (option FieldError))
  : result (option FieldError) :=
  let newErrs_errors :=
    match fe with
    | None => None                          (* the map of [&FieldError{}] *)
    | Some _ => getNormalizedErrors_ptr fe  (* [if fe != nil] *)
    end in
  m <- Also_args newErrs_errors errs ;;
  if (nilable_len m =? 0)%nat then Ok None
  else
    match m with
    | None => Ok None
    | Some entries => Ok (Some (mkFieldError "" [] "" (map_range entries)))
    end.

(** The body of the loop of [ViaField] for one normalized error [e]. *)
Definition ViaField_entry (prefix : list string)
  (newErr : result (option FieldError)) (entry : string * FieldError)
  : result (option FieldError) :=
  acc <- newErr ;;
  let e := snd entry in
  let newPaths := map (fun oldPath => flatten (prefix ++ [oldPath])) (Paths e) in
  Also acc [Some (set_Paths e newPaths)].

(** [func (fe *FieldError) ViaField(prefix ...string) *FieldError]. *)
Definition ViaField (fe : option FieldError) (prefix : list string)
  : result (option FieldError) :=
  match fe with
  | None => Ok None
  | Some fe' =>
      fold_left (ViaField_entry prefix)
                (map_range (getNormalizedErrors fe'))
                (Ok (Some zeroFieldError))
  end.

(** [func (fe *FieldError) ViaIndex(index int) *FieldError]. *)
Definition ViaIndex (fe : option FieldError) (index : Z)
  : result (option FieldError) :=
  ViaField fe [asIndex index].

(** [func (fe *FieldError) ViaFieldIndex(field string, index int) *FieldError]. *)
Definition ViaFieldIndex (fe : option FieldError) (field : string) (index : Z)
  : result (option FieldError) :=
  r <- ViaIndex fe index ;;
  ViaField r [field].

(** [func (fe *FieldError) ViaKey(key string) *FieldError]. *)
Definition ViaKey (fe : option FieldError) (k : string)
  : result (option FieldError) :=
  ViaField fe [asKey k].

(** [func (fe *FieldError) ViaFieldKey(field string, key string) *FieldError]. *)
Definition ViaFieldKey (fe : option FieldError) (field : string) (k : string)
  : result (option FieldError) :=
  r <- ViaKey fe k ;;
  ViaField r [field].

(** One line, or one line and the details, of [Error].  [sort.Slice] sorts
    [e.Paths] in place; the string built here is all that is kept of it. *)
Definition Error_entry (e : FieldError) : string :=
  let paths := sort_Slice (fun p => p) (Paths e) in
  if String.eqb (Details e) "" then
    Message e ++ ": " ++ GoStr.Join paths ", "
  else
    Message e ++ ": " ++ GoStr.Join paths ", " ++ GoStr.nl ++ Details e.

(** [func (fe *FieldError) Error() string].  Its first statement reads
    [len(fe.errors)] through the receiver, before [getNormalizedErrors] and
    its nil check are reached. *)
Definition Error (fe : option FieldError) : result string :=
  match fe with
  | None => Panic NilPointerDereference
  | Some fe' =>
      let errors := map snd (map_range (getNormalizedErrors fe')) in
      let errors := sort_Slice Message errors in
      let errs := map Error_entry errors in
      Ok (GoStr.Join errs GoStr.nl)
  end.

End Accumulator.

(* ================================================================== *)
(** ** The constructors *)

(** [func ErrMissingField(fieldPaths ...string) *FieldError]. *)
Definition ErrMissingField (fieldPaths : list string) : option FieldError :=
  Some (mkFieldError "missing field(s)" fieldPaths "" []).

(** [func ErrDisallowedFields(fieldPaths ...string) *FieldError]. *)
Definition ErrDisallowedFields (fieldPaths : list string) : option FieldError :=
  Some (mkFieldError "must not set the field(s)" fieldPaths "" []).

(** [func ErrInvalidValue(value, fieldPath string) *FieldError]. *)
Definition ErrInvalidValue {uc : GoStr.GoUnicode} (value fieldPath : string)
  : option FieldError :=
  Some (mkFieldError ("invalid value " ++ GoStr.Quote value) [fieldPath] "" []).

(** [func ErrMissingOneOf(fieldPaths ...string) *FieldError]. *)
Definition ErrMissingOneOf (fieldPaths : list string) : option FieldError :=
  Some (mkFieldError "expected exactly one, got neither" fieldPaths "" []).

(** [func ErrMultipleOneOf(fieldPaths ...string) *FieldError]. *)
Definition ErrMultipleOneOf (fieldPaths : list string) : option FieldError :=
  Some (mkFieldError "expected exactly one, got both" fieldPaths "" []).

(** [func ErrInvalidKeyName(value, fieldPath string, details ...string) *FieldError]. *)
Definition ErrInvalidKeyName {uc : GoStr.GoUnicode} (value fieldPath : string)
  (details : list string) : option FieldError :=
  Some (mkFieldError ("invalid key name " ++ GoStr.Quote value) [fieldPath]
                     (GoStr.Join details ", ") []).

(* ================================================================== *)
(** ** The rendering the specification describes *)

(** The paths of an entry in ascending order. *)
Definition sorted_paths (paths : list string) : list string :=
  isort_by (fun p => p) paths.

(** Nothing for empty details, a line feed and the details otherwise. *)
Definition details_suffix (details : string) : string :=
  if String.eqb details "" then "" else (GoStr.nl ++ details)%string.

(** One entry: the message, a colon, the sorted paths joined by commas,
    and the details on the lines below. *)
Definition render (message : string) (paths : list string) (details : string)
  : string :=
  message ++ ": " ++ GoStr.Join (sorted_paths paths) ", " ++ details_suffix details.

Definition render_entry (e : FieldError) : string :=
  render (Message e) (Paths e) (Details e).

(* ================================================================== *)
(** ** [merge] *)

(** *** Slices of strings

    [merge] appends to [newErrors[curr].Paths] with [append], which writes
    into the array of the slice when the capacity allows it, so that the
    write shows in every slice on that array.  For [merge] the arrays of
    strings are therefore kept in a memory, and the [Paths] of an element of
    [errors] is a slice header on one of them. *)

(** The arrays of strings, by their index. *)
Definition memory : Type := list (list string).

(** A slice header: the array, the offset of the first element in it, the
    length and the capacity.  The slice [nil] has length and capacity 0. *)
Record slice : Type := mkSlice {
  s_array : nat;
  s_off : nat;
  s_len : nat;
  s_cap : nat
}.

(** The elements of a slice. *)
Definition slice_elems (mem : memory) (s : slice) : list string :=
  firstn (s_len s) (skipn (s_off s) (nth (s_array s) mem [])).

(** [l[i] = x] on a slice, used where [i < len(l)]. *)
Fixpoint slice_set {A : Type} (i : nat) (x : A) (l : list A) : list A :=
  match l, i with
  | [], _ => []
  | _ :: l', O => x :: l'
  | y :: l', S i' => y :: slice_set i' x l'
  end.

(** The array [a] with [xs] written from index [i] on. *)
Definition write_at (a : list string) (i : nat) (xs : list string)
  : list string :=
  firstn i a ++ xs ++ skipn (i + List.length xs) a.

(** The capacity [append] gives the array it allocates, from the capacity of
    the slice and the length needed: a rule of the Go release, of which the
    code can only rely on the room for what is appended. *)
Class GoAlloc : Type := {
  grown_cap : nat -> nat -> nat;
  grown_cap_fits : forall old needed : nat, needed <= grown_cap old needed
}.

(** The rule that doubles the capacity, or takes the length needed when
    that is more: one admissible allocation. *)
Definition doubling_alloc : GoAlloc :=
  {| grown_cap := fun old needed => Nat.max needed (2 * old);
     grown_cap_fits := fun old needed => Nat.le_max_l needed (2 * old) |}.

(** [append(s, xs...)]: within the capacity the elements are written into
    the array of [s], behind its last element; beyond it a new array is
    allocated, which receives the elements of [s] and [xs]. *)
Definition slice_append {al : GoAlloc} (mem : memory) (s : slice)
  (xs : list string) : memory * slice :=
  let needed := s_len s + List.length xs in
  if (needed <=? s_cap s)%nat then
    (slice_set (s_array s)
               (write_at (nth (s_array s) mem []) (s_off s + s_len s) xs) mem,
     mkSlice (s_array s) (s_off s) needed (s_cap s))
  else
    let newcap := grown_cap (s_cap s) needed in
    (mem ++ [slice_elems mem s ++ xs ++ repeat EmptyString (newcap - needed)],
     mkSlice (List.length mem) 0 needed newcap).

(** A [FieldError] struct as [merge] receives it in [errors]: the [Paths]
    is a slice header. *)
Record StoredError : Type := mkStoredError {
  st_Message : string;
  st_Paths : slice;
  st_Details : string;
  st_errors : list (string * FieldError)
}.

Definition zeroStoredError : StoredError :=
  mkStoredError "" (mkSlice 0 0 0 0) "" [].

(** [e.Paths = ps] on a struct [e]. *)
Definition set_st_Paths (e : StoredError) (ps : slice) : StoredError :=
  mkStoredError (st_Message e) ps (st_Details e) (st_errors e).

(** The value of a struct in a memory. *)
Definition view (mem : memory) (e : StoredError) : FieldError :=
  mkFieldError (st_Message e) (slice_elems mem (st_Paths e)) (st_Details e)
               (st_errors e).

(** The paths of [errors[i]] that [merge] appends to [newErrors[curr].Paths]:
    those that the paths of [newErrors[curr]] do not contain.  [nextPaths] is
    a slice that [merge] makes, fills and drops within one turn of the
    loop. *)
Definition nextPaths (curr_paths paths : list string) : list string :=
  filter (fun p => negb (containsString curr_paths p)) paths.

(** The body of the loop of [merge] for [errors[i]], on the memory,
    [newErrors] and [curr]. *)
Definition merge_step {al : GoAlloc}
  (state : memory * list StoredError * nat) (e : StoredError)
  : memory * list StoredError * nat :=
  let '(mem, newErrors, curr) := state in
  let c := nth curr newErrors zeroStoredError in
  if String.eqb (st_Message c) (st_Message e)
     && String.eqb (st_Details c) (st_Details e)
  then
    let (mem', paths) :=
      slice_append mem (st_Paths c)
        (nextPaths (slice_elems mem (st_Paths c))
                   (slice_elems mem (st_Paths e))) in
    (mem', slice_set curr (set_st_Paths c paths) newErrors, curr)
  else
    (mem, newErrors ++ [e], List.length (newErrors ++ [e]) - 1).

(** The loop of [merge] on the sorted slice. *)
Definition merge_sorted {al : GoAlloc} (mem : memory)
  (errors : list StoredError) : memory * list StoredError :=
  let '(mem', newErrors, _) :=
    fold_left merge_step (skipn 1 errors)
              (mem, [nth 0 errors zeroStoredError], 0) in
  (mem', newErrors).

(** [func merge(errors []FieldError) []FieldError]: the memory it leaves and
    the slice it returns. *)
Definition merge {rt : GoRuntime} {al : GoAlloc} (mem : memory)
  (errors : list StoredError) : memory * list StoredError :=
  if (List.length errors <=? 1)%nat then (mem, errors)
  else merge_sorted mem (sort_Slice st_Message errors).

(** What [merge] returns, read in the memory it leaves. *)
Definition merged {rt : GoRuntime} {al : GoAlloc} (mem : memory)
  (errors : list StoredError) : list FieldError :=
  map (view (fst (merge mem errors))) (snd (merge mem errors)).

(** The test of [merge] on [newErrors[curr]] and [errors[i]]. *)
Definition same_stored (c e : StoredError) : bool :=
  String.eqb (st_Message c) (st_Message e)
  && String.eqb (st_Details c) (st_Details e).

(** The loop of [merge] with [newErrors] split into what precedes
    [newErrors[curr]] and [newErrors[curr]] itself, which is its last
    element throughout. *)
Fixpoint merge_loop_in {al : GoAlloc} (mem : memory)
  (front : list StoredError) (c : StoredError) (rest : list StoredError)
  : memory * list StoredError :=
  match rest with
  | [] => (mem, front ++ [c])
  | e :: rest' =>
      if same_stored c e then
        let (mem', paths) :=
          slice_append mem (st_Paths c)
            (nextPaths (slice_elems mem (st_Paths c))
                       (slice_elems mem (st_Paths e))) in
        merge_loop_in mem' front (set_st_Paths c paths) rest'
      else merge_loop_in mem (front ++ [c]) e rest'
  end.

(** The same test on values. *)
Definition same_entry (c e : FieldError) : bool :=
  String.eqb (Message c) (Message e) && String.eqb (Details c) (Details e).

(** The loop on values: what the loop of [merge] computes as long as no
    [append] writes into an array that another slice reads. *)
Fixpoint merge_loop (front : list FieldError) (c : FieldError)
  (rest : list FieldError) : list FieldError :=
  match rest with
  | [] => front ++ [c]
  | e :: rest' =>
      if same_entry c e then
        merge_loop front
          (set_Paths c (Paths c ++ nextPaths (Paths c) (Paths e))) rest'
      else merge_loop (front ++ [c]) e rest'
  end.

(** A slice without spare capacity that is empty or lies within its array:
    [append] copies it before it adds to it. *)
Definition tight (mem : memory) (s : slice) : Prop :=
  s_cap s = s_len s
  /\ (s_len s = 0
      \/ s_off s + s_len s <= List.length (nth (s_array s) mem [])).

(** A slice within its capacity, whose capacity is 0 or lies within its
    array. *)
Definition fits (mem : memory) (s : slice) : Prop :=
  s_len s <= s_cap s
  /\ (s_cap s = 0
      \/ s_off s + s_cap s <= List.length (nth (s_array s) mem [])).

(** A slice that reads no array from index [b] on. *)
Definition reads_below (b : nat) (s : slice) : Prop :=
  s_len s = 0 \/ s_array s < b.

(** Two memories with the same arrays below [b]. *)
Definition agree_below (b : nat) (mem mem' : memory) : Prop :=
  forall j, j < b -> nth j mem' [] = nth j mem [].

(** The slice [append] works on in the loop of [merge]: one that [append]
    copies, or one on the array [b], which no other slice reads. *)
Definition appendable (b : nat) (mem : memory) (s : slice) : Prop :=
  b <= List.length mem
  /\ fits mem s
  /\ (s_cap s = s_len s /\ reads_below b s
      \/ s_array s = b /\ b < List.length mem).

(** The message and the details of an entry. *)
Definition shape (e : FieldError) : string * string := (Message e, Details e).

Definition st_shape (e : StoredError) : string * string :=
  (st_Message e, st_Details e).

(** No entry is followed by one with its message and details. *)
Fixpoint adjacent_differ (l : list FieldError) : Prop :=
  match l with
  | [] => True
  | a :: l' =>
      match l' with
      | [] => True
      | b :: _ => same_entry a b = false /\ adjacent_differ l'
      end
  end.

(** Some entry of [l] has the message and the details of [e] and all of its
    paths. *)
Definition covered (l : list FieldError) (e : FieldError) : Prop :=
  exists o, In o l /\ Message o = Message e /\ Details o = Details e
            /\ incl (Paths e) (Paths o).

(** Every path of every entry of [l] is a path of an entry of [errors] with
    the same message and details. *)
Definition drawn_from (errors l : list FieldError) : Prop :=
  forall o, In o l ->
    (exists e, In e errors /\ Message e = Message o /\ Details e = Details o)
    /\ (forall p, In p (Paths o) ->
          exists e, In e errors /\ Message e = Message o
                    /\ Details e = Details o /\ In p (Paths e)).

(** An entry of a normalized map: a leaf with a message, stored under its
    key. *)
Definition normal_entry (entry : string * FieldError) : Prop :=
  Message (snd entry) <> "" /\ errors (snd entry) = []
  /\ fst entry = key_of (snd entry).

(** A normalized map: entries that are normal, under keys that differ. *)
Definition normal_map (m : gomap) : Prop :=
  NoDup (map fst m) /\ Forall normal_entry m.

(** An entry that holds a message, as opposed to a zero value. *)
Definition live (entry : string * FieldError) : bool :=
  negb (String.eqb (Message (snd entry)) "").

(** The entries of the map that [Also] builds: normal ones and zero values,
    under keys that differ. *)
Definition held_map (m : gomap) : Prop :=
  NoDup (map fst m)
  /\ Forall (fun entry => normal_entry entry \/ snd entry = zeroFieldError) m.

(** The normalized entries of what an operation returned; none for nil. *)
Definition entries_of {rt : GoRuntime} (r : option FieldError) : gomap :=
  match r with
  | None => []
  | Some fe => getNormalizedErrors fe
  end.

(** A piece that begins with an opening bracket also ends with a closing
    one. *)
Definition well_bracketed (p : string) : bool :=
  implb (GoStr.HasPrefix p "[") (GoStr.HasSuffix p "]").

(** No byte of [s] is [c]. *)
Fixpoint free_of (c : ascii) (s : string) : bool :=
  match s with
  | EmptyString => true
  | String d s' => negb (Ascii.eqb d c) && free_of c s'
  end.

(** What holds of every segment that [flatten] builds from pieces that are not
    empty, have no dot and are well bracketed. *)
Definition good_segment (s : string) : Prop :=
  s <> "" /\ free_of "." s = true /\ well_bracketed s = true.

(* ================================================================== *)
(** ** The condition set ([apis/duck/v1alpha1/condition_set.go]) *)

Module ConditionSets.

(** [type ConditionType string]. *)
Definition ConditionType : Type := string.

(** [type ConditionSet struct { happy; dependents }]. *)
Record ConditionSet : Type := mkConditionSet {
  happy : ConditionType;
  dependents : list ConditionType
}.

(** [func contains(ct []ConditionType, t ConditionType) bool]. *)
Fixpoint contains (ct : list ConditionType) (t : ConditionType) : bool :=
  match ct with
  | [] => false
  | c :: ct' => if String.eqb c t then true else contains ct' t
  end.

(** [func newConditionSet(happy ConditionType, dependents ...ConditionType)
    ConditionSet]. *)
Definition newConditionSet (happy : ConditionType)
  (dependents : list ConditionType) : ConditionSet :=
  mkConditionSet happy
    (fold_left
       (fun deps d => if String.eqb d happy || contains deps d then deps
                      else deps ++ [d])
       dependents []).

End ConditionSets.

(** The outcome of an operation that returned an accumulator that is not
    nil, has no normalized entry and renders as the empty string. *)
Definition returns_hollow {rt : GoRuntime} (outcome : result (option FieldError))
  : Prop :=
  exists r, outcome = Ok (Some r)
            /\ getNormalizedErrors r = [] /\ Error (Some r) = Ok "".

(** [m'] holds every entry of [m], under its key and with its message and
    details, and with all of its paths. *)
Definition keeps_entries (m m' : gomap) : Prop :=
  forall k e, map_get k m = Some e ->
    exists e', map_get k m' = Some e'
               /\ Message e' = Message e /\ Details e' = Details e
               /\ incl (Paths e) (Paths e').

(* ================================================================== *)
(** * Properties *)

(** ** The order of Go strings *)

Lemma str_le_compare a b : str_le a b <-> String.compare a b <> Gt.
Proof.
  unfold str_le, String.ltb. rewrite (String.compare_antisym a b).
  destruct (String.compare b a); simpl; split; congruence.
Qed.

Lemma str_le_refl a : str_le a a.
Proof.
  apply str_le_compare. intro H.
  pose proof (String.compare_antisym a a) as E. rewrite H in E. discriminate.
Qed.

Lemma compare_lt_trans a b c :
  String.compare a b = Lt -> String.compare b c = Lt -> String.compare a c = Lt.
Proof.
  intros H1 H2.
  apply OrderedTypeEx.String_as_OT.cmp_lt.
  eapply OrderedTypeEx.String_as_OT.lt_trans;
    apply OrderedTypeEx.String_as_OT.cmp_lt; eassumption.
Qed.

Lemma str_le_trans a b c : str_le a b -> str_le b c -> str_le a c.
Proof.
  rewrite !str_le_compare. intros Hab Hbc.
  destruct (String.compare a b) eqn:Eab; try congruence.
  - apply String.compare_eq_iff in Eab. subst. assumption.
  - destruct (String.compare b c) eqn:Ebc; try congruence.
    + apply String.compare_eq_iff in Ebc. subst. congruence.
    + rewrite (compare_lt_trans _ _ _ Eab Ebc). discriminate.
Qed.

Lemma str_le_antisym a b : str_le a b -> str_le b a -> a = b.
Proof.
  rewrite !str_le_compare. intros Hab Hba.
  rewrite (String.compare_antisym a b) in Hab.
  destruct (String.compare b a) eqn:E; simpl in Hab; try congruence.
  symmetry. now apply String.compare_eq_iff.
Qed.

Lemma str_le_total a b : str_le a b \/ str_le b a.
Proof.
  rewrite !str_le_compare. rewrite (String.compare_antisym a b).
  destruct (String.compare b a); simpl; [left | right | left]; discriminate.
Qed.

Lemma ltb_true_le a b : String.ltb a b = true -> str_le a b.
Proof.
  unfold String.ltb. intro H. apply str_le_compare.
  destruct (String.compare a b); congruence.
Qed.

(** ** Insertion sort is an admissible [sort.Slice] *)

Section Sorting.

Context {A : Type} (k : A -> string).

Lemma insert_by_perm x xs : Permutation (insert_by k x xs) (x :: xs).
Proof.
  induction xs as [|y ys IH]; simpl.
  - apply Permutation_refl.
  - destruct (String.ltb (k x) (k y)).
    + apply Permutation_refl.
    + eapply perm_trans; [apply perm_skip, IH | apply perm_swap].
Qed.

Lemma isort_by_perm xs : Permutation (isort_by k xs) xs.
Proof.
  induction xs as [|x xs IH]; simpl.
  - constructor.
  - eapply perm_trans; [apply insert_by_perm | apply perm_skip, IH].
Qed.

Lemma insert_by_sorted x xs :
  StronglySorted (key_le k) xs -> StronglySorted (key_le k) (insert_by k x xs).
Proof.
  induction 1 as [|y ys Hs IH Hall]; simpl.
  - repeat constructor.
  - destruct (String.ltb (k x) (k y)) eqn:E.
    + constructor; [constructor; assumption|].
      constructor; [now apply ltb_true_le|].
      eapply Forall_impl; [|exact Hall].
      intros z Hz. eapply str_le_trans; [apply ltb_true_le; eassumption | exact Hz].
    + constructor; [assumption|].
      eapply Permutation_Forall; [apply Permutation_sym, insert_by_perm|].
      constructor; [exact E | exact Hall].
Qed.

Lemma isort_by_sorted xs : StronglySorted (key_le k) (isort_by k xs).
Proof.
  induction xs; simpl; [constructor | now apply insert_by_sorted].
Qed.

End Sorting.

(** The run-time that visits a map in the order of its list and sorts by
    insertion. *)
#[export] Instance insertion_runtime : GoRuntime := {|
  map_range := fun A m => m;
  map_range_perm := fun A m => Permutation_refl m;
  sort_Slice := @isort_by;
  sort_Slice_perm := @isort_by_perm;
  sort_Slice_sorted := @isort_by_sorted
|}.

(** ** Strings and [strings.Join] *)

Lemma append_assoc (a b c : string) : ((a ++ b) ++ c = a ++ (b ++ c))%string.
Proof. induction a; simpl; [reflexivity | now rewrite IHa]. Qed.

Lemma append_empty_r (a : string) : (a ++ "" = a)%string.
Proof. induction a; simpl; [reflexivity | now rewrite IHa]. Qed.

Lemma Join_snoc (l : list string) (p sep : string) :
  l <> [] -> GoStr.Join (l ++ [p]) sep = (GoStr.Join l sep ++ sep ++ p)%string.
Proof.
  induction l as [|a l IH]; intros Hne; [congruence|].
  destruct l as [|b l].
  - reflexivity.
  - change (GoStr.Join ((a :: b :: l) ++ [p]) sep)
      with (a ++ sep ++ GoStr.Join ((b :: l) ++ [p]) sep)%string.
    rewrite IH by discriminate.
    change (GoStr.Join (a :: b :: l) sep)
      with (a ++ sep ++ GoStr.Join (b :: l) sep)%string.
    now rewrite !append_assoc.
Qed.

Lemma Join_set_last (l : list string) (p sep : string) :
  l <> [] ->
  GoStr.Join (set_last l (List.last l "" ++ p)) sep = (GoStr.Join l sep ++ p)%string.
Proof.
  unfold set_last.
  induction l as [|a l IH]; intros Hne; [congruence|].
  destruct l as [|b l].
  - reflexivity.
  - change (removelast (a :: b :: l)) with (a :: removelast (b :: l)).
    change (List.last (a :: b :: l) "") with (List.last (b :: l) "").
    specialize (IH ltac:(discriminate)).
    assert (Hcons : exists c r, removelast (b :: l) ++ [(List.last (b :: l) "" ++ p)%string] = c :: r).
    { destruct (removelast (b :: l)); simpl; eauto. }
    destruct Hcons as (c & r & Hcr).
    change ((a :: removelast (b :: l)) ++ [(List.last (b :: l) "" ++ p)%string])
      with (a :: (removelast (b :: l) ++ [(List.last (b :: l) "" ++ p)%string])).
    rewrite Hcr in *.
    change (GoStr.Join (a :: c :: r) sep) with (a ++ sep ++ GoStr.Join (c :: r) sep)%string.
    rewrite IH.
    change (GoStr.Join (a :: b :: l) sep)
      with (a ++ sep ++ GoStr.Join (b :: l) sep)%string.
    now rewrite !append_assoc.
Qed.

(** ** [flatten] *)

Lemma flatten_piece_current (newPath : list string) :
  flatten_piece newPath CurrentField = newPath.
Proof. reflexivity. Qed.

Lemma fold_flatten_piece_filter (ps newPath : list string) :
  fold_left flatten_piece ps newPath =
  fold_left flatten_piece
    (filter (fun p => negb (String.eqb p CurrentField)) ps) newPath.
Proof.
  revert newPath. induction ps as [|p ps IH]; intros newPath; [reflexivity|].
  simpl. destruct (String.eqb p CurrentField) eqn:E; simpl.
  - apply String.eqb_eq in E. subst p. rewrite flatten_piece_current. apply IH.
  - apply IH.
Qed.

Lemma fold_flatten_part (path newPath : list string) :
  fold_left flatten_part path newPath =
  fold_left flatten_piece
    (concat (map (fun part => GoStr.Split part ".") path)) newPath.
Proof.
  revert newPath. induction path as [|part path IH]; intros newPath; [reflexivity|].
  simpl. rewrite fold_left_app. apply IH.
Qed.

Lemma flatten_piece_nonempty (newPath : list string) (p : string) :
  newPath <> [] -> flatten_piece newPath p <> [].
Proof.
  intros Hne. unfold flatten_piece, set_last.
  destruct (String.eqb p CurrentField); [assumption|].
  destruct ((0 <? List.length newPath)%nat && isIndex p);
    intros H; apply app_eq_nil in H; destruct H; discriminate.
Qed.

Lemma Join_fold_flatten_piece (ps newPath : list string) :
  newPath <> [] ->
  Forall (fun p => p <> CurrentField) ps ->
  GoStr.Join (fold_left flatten_piece ps newPath) "." =
  (GoStr.Join newPath "." ++ fold_right String.append "" (map flatten_glue ps))%string.
Proof.
  revert newPath. induction ps as [|p ps IH]; intros newPath Hne Hall; simpl.
  - now rewrite append_empty_r.
  - inversion Hall as [|? ? Hp Hps]; subst.
    rewrite IH by (try assumption; now apply flatten_piece_nonempty).
    rewrite <- append_assoc. f_equal.
    unfold flatten_piece, flatten_glue.
    apply String.eqb_neq in Hp. rewrite Hp.
    assert (Hlen : (0 <? List.length newPath)%nat = true).
    { destruct newPath; [congruence | reflexivity]. }
    rewrite Hlen. simpl andb.
    destruct (isIndex p).
    + now apply Join_set_last.
    + now apply Join_snoc.
Qed.

(** The cases of [TestFlatten]. *)
Example TestFlatten_cases :
  flatten (GoStr.Split "foo.[1]" ".") = "foo[1]"
  /\ flatten (GoStr.Split "foo.bar" ".") = "foo.bar"
  /\ flatten (GoStr.Split "foo.bar.[0]" ".") = "foo.bar[0]"
  /\ flatten (GoStr.Split "foo.[0].bar" ".") = "foo[0].bar"
  /\ flatten (GoStr.Split "[0].foo.bar" ".") = "[0].foo.bar"
  /\ flatten (GoStr.Split "foo.[1].[0].bar" ".") = "foo[1][0].bar"
  /\ flatten ["foo"; "bar.[0].baz"] = "foo.bar[0].baz".
Proof. repeat split. Qed.

(** [flatten] computes what its description says, on every path. *)
Lemma flatten_eq_spec (path : list string) : flatten path = flatten_spec path.
Proof.
  unfold flatten, flatten_spec, flatten_pieces.
  rewrite fold_flatten_part, fold_flatten_piece_filter.
  set (pieces := filter _ _).
  assert (Hall : Forall (fun p => p <> CurrentField) pieces).
  { apply Forall_forall. intros p Hin. apply filter_In in Hin.
    destruct Hin as [_ Hp]. apply negb_true_iff in Hp. now apply String.eqb_neq. }
  destruct pieces as [|first later]; [reflexivity|].
  inversion Hall as [|? ? Hfirst Hlater]; subst.
  simpl fold_left.
  assert (Hstart : flatten_piece [] first = [first]).
  { unfold flatten_piece. apply String.eqb_neq in Hfirst. now rewrite Hfirst. }
  rewrite Hstart.
  rewrite Join_fold_flatten_piece by (try assumption; discriminate).
  reflexivity.
Qed.

Lemma HasPrefix_iff (s p : string) :
  GoStr.HasPrefix s p = true <-> exists r, s = (p ++ r)%string.
Proof.
  unfold GoStr.HasPrefix. revert s.
  induction p as [|c p IH]; intros s.
  - destruct s; simpl; split; eauto.
  - destruct s as [|d s]; simpl.
    + split; [discriminate | intros [r Hr]; discriminate].
    + destruct (ascii_dec c d) as [->|Hne].
      * rewrite IH. split; intros [r Hr]; exists r; congruence.
      * split; [discriminate | intros [r Hr]; congruence].
Qed.

Lemma HasSuffix_iff (s suffix : string) :
  GoStr.HasSuffix s suffix = true <-> exists t, s = (t ++ suffix)%string.
Proof.
  induction s as [|c s IH]; cbn [GoStr.HasSuffix].
  - rewrite orb_false_r, String.eqb_eq. split.
    + intros <-. now exists "".
    + intros [t Ht]. destruct t; simpl in Ht; [congruence | discriminate].
  - rewrite orb_true_iff, String.eqb_eq, IH. split.
    + intros [<- | [t ->]]; [now exists "" | now exists (String c t)].
    + intros [t Ht]. destruct t as [|d t]; simpl in Ht; [now left|].
      right. exists t. congruence.
Qed.

(** An index or key marker is a piece that begins with an opening bracket
    and ends with a closing one. *)
Lemma isIndex_iff (p : string) :
  isIndex p = true <->
  (exists r, p = ("[" ++ r)%string) /\ (exists t, p = (t ++ "]")%string).
Proof.
  unfold isIndex. now rewrite andb_true_iff, HasPrefix_iff, HasSuffix_iff.
Qed.

(** ** Every run-time agrees on short lists and on lists of strings *)

Section Runtime.

Context {rt : GoRuntime}.

Lemma map_range_nil (A : Type) : map_range (@nil (string * A)) = [].
Proof. apply Permutation_nil, Permutation_sym, map_range_perm. Qed.

Lemma map_range_one (A : Type) (x : string * A) : map_range [x] = [x].
Proof. apply Permutation_length_1_inv, Permutation_sym, map_range_perm. Qed.

Lemma sort_Slice_nil (A : Type) (k : A -> string) : sort_Slice k [] = [].
Proof. apply Permutation_nil, Permutation_sym, sort_Slice_perm. Qed.

Lemma sort_Slice_one (A : Type) (k : A -> string) (x : A) :
  sort_Slice k [x] = [x].
Proof. apply Permutation_length_1_inv, Permutation_sym, sort_Slice_perm. Qed.

End Runtime.

(** Two sorted lists of strings with the same elements are the same list. *)
Lemma sorted_strings_unique (l1 l2 : list string) :
  StronglySorted str_le l1 -> StronglySorted str_le l2 ->
  Permutation l1 l2 -> l1 = l2.
Proof.
  revert l2. induction l1 as [|a l1 IH]; intros l2 S1 S2 P.
  - now apply Permutation_nil in P.
  - destruct l2 as [|b l2].
    + apply Permutation_sym, Permutation_nil in P. discriminate.
    + inversion S1 as [|? ? S1' F1]; inversion S2 as [|? ? S2' F2]; subst.
      assert (Hab : a = b).
      { assert (Ia : In a (b :: l2)) by (eapply Permutation_in; [exact P | now left]).
        assert (Ib : In b (a :: l1))
          by (eapply Permutation_in; [apply Permutation_sym; exact P | now left]).
        rewrite Forall_forall in F1, F2.
        destruct Ia as [->|Ia]; [reflexivity|].
        destruct Ib as [->|Ib]; [reflexivity|].
        apply str_le_antisym; auto. }
      subst b. f_equal. apply IH; auto.
      now apply Permutation_cons_inv in P.
Qed.

(** [sort.Slice] on a slice of strings compared by [<] has one outcome. *)
Lemma sort_Slice_strings {rt : GoRuntime} (l : list string) :
  sort_Slice (fun p => p) l = isort_by (fun p => p) l.
Proof.
  apply sorted_strings_unique.
  - apply sort_Slice_sorted.
  - apply (isort_by_sorted (fun p : string => p)).
  - eapply perm_trans; [apply sort_Slice_perm|].
    apply Permutation_sym, isort_by_perm.
Qed.

(** ** Normalization *)

Section Normalization.

Context {rt : GoRuntime}.

Lemma getNormalizedErrors_eq (fe : FieldError) :
  getNormalizedErrors fe = collect_nested (errors fe) (normalize_leaf fe).
Proof.
  destruct fe as [m ps d nested]. cbn [getNormalizedErrors errors].
  generalize (normalize_leaf (mkFieldError m ps d nested)) as acc.
  induction nested as [|[k e] nested IH]; intros acc; [reflexivity|].
  cbn [collect_nested]. apply IH.
Qed.

Lemma getNormalizedErrors_leaf (fe : FieldError) :
  errors fe = [] -> getNormalizedErrors fe = normalize_leaf fe.
Proof. intros H. rewrite getNormalizedErrors_eq, H. reflexivity. Qed.

Lemma getNormalizedErrors_zero : getNormalizedErrors zeroFieldError = [].
Proof. reflexivity. Qed.

Lemma getNormalizedErrors_junk (k : string) : getNormalizedErrors (junk k) = [].
Proof.
  rewrite getNormalizedErrors_eq. cbn [junk errors collect_nested].
  rewrite getNormalizedErrors_zero, map_range_nil. reflexivity.
Qed.

End Normalization.

(** ** Maps and paths *)

Lemma map_set_not_nil (A : Type) (k : string) (v : A) (m : list (string * A)) :
  map_set k v m <> [].
Proof. destruct m as [|[k' v'] m]; simpl; [|destruct (String.eqb k k')]; discriminate. Qed.

Lemma map_set_same (A : Type) (k : string) (v : A) (m : list (string * A)) :
  map_get k m = Some v -> map_set k v m = m.
Proof.
  induction m as [|[k' v'] m IH]; simpl; [discriminate|].
  destruct (String.eqb k k') eqn:E.
  - apply String.eqb_eq in E. intros [= ->]. now subst.
  - intros H. now rewrite IH.
Qed.

Lemma containsString_app (l1 l2 : list string) (s : string) :
  containsString (l1 ++ l2) s = containsString l1 s || containsString l2 s.
Proof.
  induction l1 as [|x l1 IH]; simpl; [reflexivity|].
  destruct (String.eqb x s); [reflexivity | exact IH].
Qed.

Lemma mergePaths_contained (b a : list string) :
  Forall (fun p => containsString a p = true) b -> mergePaths a b = a.
Proof.
  unfold mergePaths. induction 1 as [|p b Hp _ IH]; simpl; [reflexivity|].
  now rewrite Hp.
Qed.

(** Merging a list of paths with itself changes nothing. *)
Lemma mergePaths_self (a : list string) : mergePaths a a = a.
Proof.
  apply mergePaths_contained.
  induction a as [|x a IH]; constructor.
  - simpl. now rewrite String.eqb_refl.
  - eapply Forall_impl; [|exact IH]. intros p Hp. simpl.
    destruct (String.eqb x p); [reflexivity | exact Hp].
Qed.

Lemma set_Paths_same (e : FieldError) : set_Paths e (Paths e) = e.
Proof. now destruct e. Qed.

(** ** [Also] *)

Section AlsoFacts.

Context {rt : GoRuntime}.

(** A nil argument panics in [key], whatever the receiver. *)
Lemma Also_nil_arg (fe : option FieldError) (errs : list (option FieldError)) :
  Also fe (None :: errs) = Panic NilPointerDereference.
Proof. reflexivity. Qed.

(** On a nil receiver an argument that is not nil panics in the assignment
    to the nil map. *)
Lemma Also_nil_receiver (e : FieldError) (errs : list (option FieldError)) :
  Also None (Some e :: errs) = Panic NilMapAssignment.
Proof. reflexivity. Qed.

Lemma Also_no_args (fe : option FieldError) :
  Also fe [] =
  match fe with
  | None => Ok None
  | Some fe' =>
      match getNormalizedErrors fe' with
      | [] => Ok None
      | _ :: _ =>
          Ok (Some (mkFieldError "" [] "" (map_range (getNormalizedErrors fe'))))
      end
  end.
Proof.
  destruct fe as [fe'|]; [|reflexivity].
  unfold Also, getNormalizedErrors_ptr. cbn [Also_args bind nilable_len].
  destruct (getNormalizedErrors fe'); reflexivity.
Qed.

(** One argument whose key is absent: the zero value is stored under it. *)
Lemma Also_absent_key (fe e : FieldError) :
  map_get (key_of e) (getNormalizedErrors fe) = None ->
  Also (Some fe) [Some e] =
  Ok (Some (mkFieldError "" [] ""
              (map_range (map_set (key_of e) zeroFieldError (getNormalizedErrors fe))))).
Proof.
  intros H.
  unfold Also, getNormalizedErrors_ptr, Also_args, Also_arg, key, bind,
    nilable_get, nilable_set.
  fold (key_of e). rewrite H. cbn [nilable_len].
  destruct (map_set (key_of e) zeroFieldError (getNormalizedErrors fe)) eqn:E.
  - now apply map_set_not_nil in E.
  - reflexivity.
Qed.

(** One argument whose key is present: the entry found is merged with
    itself, and the map is left as it was. *)
Lemma Also_present_key (fe e v : FieldError) :
  map_get (key_of e) (getNormalizedErrors fe) = Some v ->
  Also (Some fe) [Some e] =
  Ok (Some (mkFieldError "" [] "" (map_range (getNormalizedErrors fe)))).
Proof.
  intros H.
  unfold Also, getNormalizedErrors_ptr, Also_args, Also_arg, key, bind,
    nilable_get, nilable_set.
  fold (key_of e). rewrite H.
  rewrite mergePaths_self, set_Paths_same, (map_set_same _ _ _ _ H).
  cbn [nilable_len].
  destruct (getNormalizedErrors fe) eqn:E; [discriminate | reflexivity].
Qed.

Lemma Also_hollow (r e : FieldError) :
  getNormalizedErrors r = [] ->
  Also (Some r) [Some e] = Ok (Some (junk (key_of e))).
Proof.
  intros H. rewrite Also_absent_key by now rewrite H.
  rewrite H. cbn [map_set]. now rewrite map_range_one.
Qed.

End AlsoFacts.

(** ** [Error] *)

Section ErrorFacts.

Context {rt : GoRuntime}.

Lemma Error_entry_render (e : FieldError) : Error_entry e = render_entry e.
Proof.
  unfold Error_entry, render_entry, render, details_suffix, sorted_paths.
  rewrite sort_Slice_strings.
  destruct (String.eqb (Details e) ""); [now rewrite append_empty_r | reflexivity].
Qed.

(** An accumulator without normalized entries renders as the empty string. *)
Lemma Error_hollow (r : FieldError) :
  getNormalizedErrors r = [] -> Error (Some r) = Ok "".
Proof.
  intros H. unfold Error. now rewrite H, map_range_nil, sort_Slice_nil.
Qed.

(** An accumulator with one normalized entry renders as that entry. *)
Lemma Error_one_entry (fe : FieldError) (k : string) (e : FieldError) :
  getNormalizedErrors fe = [(k, e)] -> Error (Some fe) = Ok (render_entry e).
Proof.
  intros H. unfold Error. rewrite H, map_range_one. cbn [map snd].
  rewrite sort_Slice_one. cbn [map GoStr.Join]. now rewrite Error_entry_render.
Qed.

Lemma normalize_leaf_message (fe : FieldError) :
  Message fe <> "" ->
  normalize_leaf fe =
  [(key_of fe, mkFieldError (Message fe) (Paths fe) (Details fe) [])].
Proof.
  intros H. unfold normalize_leaf. apply String.eqb_neq in H. now rewrite H.
Qed.

(** The first case of [TestFieldError], which calls [Error] on a leaf. *)
Example TestFieldError_no_propagation :
  Error (Some (mkFieldError "hear me roar" ["foo.bar"] "" []))
  = Ok "hear me roar: foo.bar".
Proof.
  rewrite (Error_one_entry _ "hear me roar-"
             (mkFieldError "hear me roar" ["foo.bar"] "" [])); reflexivity.
Qed.

(** A leaf renders as its message, its sorted paths and its details. *)
Lemma Error_leaf (fe : FieldError) :
  Message fe <> "" -> errors fe = [] ->
  Error (Some fe) = Ok (render (Message fe) (Paths fe) (Details fe)).
Proof.
  intros Hm He.
  rewrite (Error_one_entry fe (key_of fe)
             (mkFieldError (Message fe) (Paths fe) (Details fe) [])).
  - reflexivity.
  - now rewrite getNormalizedErrors_leaf, normalize_leaf_message.
Qed.

(** A container that holds one leaf under its key has that one entry. *)
Lemma getNormalizedErrors_one_leaf (k : string) (e : FieldError) :
  Message e <> "" -> errors e = [] ->
  getNormalizedErrors (mkFieldError "" [] "" [(k, e)]) = [(key_of e, e)].
Proof.
  intros Hm He. rewrite getNormalizedErrors_eq. cbn [errors collect_nested].
  rewrite (getNormalizedErrors_leaf e He), (normalize_leaf_message e Hm).
  rewrite map_range_one. destruct e as [m ps d n]. cbn in He. subst n.
  reflexivity.
Qed.

End ErrorFacts.

(** ** [ViaField] and its relatives *)

Section ViaFacts.

Context {rt : GoRuntime}.

Lemma ViaField_loop_hollow (prefix : list string)
  (l : list (string * FieldError)) (acc : FieldError) :
  getNormalizedErrors acc = [] ->
  exists r, fold_left (ViaField_entry prefix) l (Ok (Some acc)) = Ok (Some r)
            /\ getNormalizedErrors r = [].
Proof.
  revert acc. induction l as [|[k e] l IH]; intros acc H.
  - exists acc. now split.
  - cbn [fold_left]. unfold ViaField_entry at 2. cbn [bind snd].
    rewrite (Also_hollow acc _ H). apply IH. apply getNormalizedErrors_junk.
Qed.

(** On a receiver that is not nil, [ViaField] returns an accumulator that is
    not nil and has no normalized entry. *)
Lemma ViaField_some (fe : FieldError) (prefix : list string) :
  exists r, ViaField (Some fe) prefix = Ok (Some r) /\ getNormalizedErrors r = [].
Proof. apply ViaField_loop_hollow. reflexivity. Qed.

Lemma ViaField_nil (prefix : list string) : ViaField None prefix = Ok None.
Proof. reflexivity. Qed.

(** [ViaField] does not panic, and returns nil for the nil receiver only. *)
Lemma ViaField_total (fe : option FieldError) (prefix : list string) :
  exists r, ViaField fe prefix = Ok r /\ (r = None <-> fe = None).
Proof.
  destruct fe as [fe|].
  - destruct (ViaField_some fe prefix) as (r & Hr & _).
    exists (Some r). split; [exact Hr | split; discriminate].
  - exists None. split; [reflexivity | tauto].
Qed.

Lemma ViaField_twice_total (fe : option FieldError) (p1 p2 : list string) :
  exists r, (r1 <- ViaField fe p1 ;; ViaField r1 p2) = Ok r
            /\ (r = None <-> fe = None).
Proof.
  destruct (ViaField_total fe p1) as (r1 & H1 & N1). rewrite H1. cbn [bind].
  destruct (ViaField_total r1 p2) as (r2 & H2 & N2). exists r2.
  split; [exact H2 | now rewrite N2].
Qed.

(** Whatever [ViaField] returns for a receiver that is not nil renders as
    the empty string. *)
Lemma ViaField_renders_empty (fe : FieldError) (prefix : list string) :
  (r <- ViaField (Some fe) prefix ;; Error r) = Ok "".
Proof.
  destruct (ViaField_some fe prefix) as (r & Hr & Hn). rewrite Hr. cbn [bind].
  now apply Error_hollow.
Qed.

End ViaFacts.

(* ================================================================== *)
(** * The claims *)

Section Claims.

Context {rt : GoRuntime}.

(** [Also] with one argument that has the key of the leaf it is called on:
    the paths of the argument are not taken over, whatever they are. *)
Lemma Also_same_key_keeps_receiver (a b : FieldError) :
  Message a <> "" -> errors a = [] -> key_of b = key_of a ->
  (r <- Also (Some a) [Some b] ;; Error r) = Error (Some a).
Proof.
  intros Hm He Hk.
  set (a' := mkFieldError (Message a) (Paths a) (Details a) []).
  assert (Hn : getNormalizedErrors a = [(key_of a, a')])
    by now rewrite getNormalizedErrors_leaf, normalize_leaf_message.
  rewrite (Also_present_key a b a').
  - rewrite Hn, map_range_one. cbn [bind].
    rewrite (Error_one_entry _ (key_of a') a'), (Error_one_entry a (key_of a) a');
      [reflexivity | exact Hn |].
    now apply getNormalizedErrors_one_leaf.
  - rewrite Hn, Hk. cbn [map_get]. now rewrite String.eqb_refl.
Qed.

(** C1 (code defect).  Two leaves with the message "A simple error message",
    no details and the disjoint paths bar and foo: [a.Also(b).Error()] is
    the one line of [a], "A simple error message: bar"; the path foo of the
    argument is lost, where the claim has "A simple error message: bar, foo". *)
Theorem Also_same_message_loses_paths :
  let a := mkFieldError "A simple error message" ["bar"] "" [] in
  let b := mkFieldError "A simple error message" ["foo"] "" [] in
  (r <- Also (Some a) [Some b] ;; Error r) = Ok "A simple error message: bar"
  /\ (r <- Also (Some a) [Some b] ;; Error r)
     <> Ok "A simple error message: bar, foo".
Proof.
  cbv zeta.
  rewrite Also_same_key_keeps_receiver by (reflexivity || discriminate).
  rewrite Error_leaf by (reflexivity || discriminate).
  split; [reflexivity | discriminate].
Qed.

(** C2 (code defect).  [Also] is not neutral on nil: [nil.Also(nil)] and
    [x.Also(nil)] panic on the nil pointer that [key] reads, and [nil.Also(x)]
    panics on the assignment to the nil map, for every [x] that is not nil. *)
Theorem Also_nil_panics :
  Also None [None] = Panic NilPointerDereference
  /\ (forall x : FieldError, Also (Some x) [None] = Panic NilPointerDereference)
  /\ (forall x : FieldError, Also None [Some x] = Panic NilMapAssignment).
Proof. repeat split. Qed.

(** C3 (code defect).  [ErrMissingField("foo","bar").ViaField("baz").Error()]
    is the empty string, not "missing field(s): baz.bar, baz.foo": the
    accumulator that [ViaField] returns holds no normalized entry. *)
Theorem ViaField_ErrMissingField_renders_empty :
  (r <- ViaField (ErrMissingField ["foo"; "bar"]) ["baz"] ;; Error r) = Ok ""
  /\ (r <- ViaField (ErrMissingField ["foo"; "bar"]) ["baz"] ;; Error r)
     <> Ok "missing field(s): baz.bar, baz.foo".
Proof.
  unfold ErrMissingField. rewrite ViaField_renders_empty.
  split; [reflexivity | discriminate].
Qed.

(** C4 (code defect).  The operations that prefix a path never panic and are
    defined on the nil receiver, but [Error()] on the nil accumulator panics
    instead of returning the empty string, and [Also] panics on every nil
    argument and, with an argument, on the nil receiver. *)
Theorem Error_and_Also_panic_on_nil :
  Error None = Panic NilPointerDereference
  /\ (forall fe errs, Also fe (None :: errs) = Panic NilPointerDereference)
  /\ (forall e errs, Also None (Some e :: errs) = Panic NilMapAssignment)
  /\ (forall fe prefix, exists r, ViaField fe prefix = Ok r)
  /\ (forall fe i, exists r, ViaIndex fe i = Ok r)
  /\ (forall fe k, exists r, ViaKey fe k = Ok r)
  /\ (forall fe f i, exists r, ViaFieldIndex fe f i = Ok r)
  /\ (forall fe f k, exists r, ViaFieldKey fe f k = Ok r)
  /\ (forall fe, exists s, Error (Some fe) = Ok s).
Proof.
  split; [reflexivity|]. split; [reflexivity|]. split; [reflexivity|].
  split; [|split; [|split; [|split; [|split]]]].
  - intros fe prefix. destruct (ViaField_total fe prefix) as (r & H & _). eauto.
  - intros fe i. destruct (ViaField_total fe [asIndex i]) as (r & H & _). eauto.
  - intros fe k. destruct (ViaField_total fe [asKey k]) as (r & H & _). eauto.
  - intros fe f i.
    destruct (ViaField_twice_total fe [asIndex i] [f]) as (r & H & _). eauto.
  - intros fe f k.
    destruct (ViaField_twice_total fe [asKey k] [f]) as (r & H & _). eauto.
  - intros fe. eexists. reflexivity.
Qed.

End Claims.

(** C5.  [flatten] splits every fragment on dots, drops the empty pieces,
    glues a piece that begins with an opening and ends with a closing bracket
    to what precedes it, if anything does, and sets every other piece after a
    dot; so flatten of foo, [1], [0], bar is foo[1][0].bar, and flatten of
    [0], foo, bar is [0].foo.bar. *)
Theorem flatten_as_described :
  (forall path, flatten path = flatten_spec path)
  /\ (forall p, isIndex p = true <->
                (exists r, p = ("[" ++ r)%string) /\ (exists t, p = (t ++ "]")%string))
  /\ flatten ["foo"; "[1]"; "[0]"; "bar"] = "foo[1][0].bar"
  /\ flatten ["[0]"; "foo"; "bar"] = "[0].foo.bar".
Proof.
  split; [exact flatten_eq_spec|]. split; [exact isIndex_iff|].
  split; reflexivity.
Qed.

(** ** The constructors *)

Section Quoting.

Context {uc : GoStr.GoUnicode}.

Lemma quote_loop_plain_byte (c : ascii) (s : string) :
  GoStr.plain_byte c = true ->
  GoStr.quote_loop 0 (String c s) = String c (GoStr.quote_loop 0 s).
Proof.
  destruct c as [[] [] [] [] [] [] [] []]; intros H;
    first [discriminate H | reflexivity].
Qed.

Lemma quote_loop_plain (s : string) :
  GoStr.plain s = true -> GoStr.quote_loop 0 s = s.
Proof.
  induction s as [|c s IH]; [reflexivity|].
  cbn [GoStr.plain]. intros H.
  apply andb_true_iff in H. destruct H as [Hc Hs].
  now rewrite (quote_loop_plain_byte c s Hc), (IH Hs).
Qed.

(** The verb [%q] puts a string of plain bytes between two double quotes. *)
Lemma Quote_plain (s : string) :
  GoStr.plain s = true ->
  GoStr.Quote s = String GoStr.dquote (s ++ String GoStr.dquote "").
Proof. intros H. unfold GoStr.Quote. now rewrite quote_loop_plain. Qed.

(** A byte that starts no rune is printed as [\x] and its two digits: the
    byte 0xff gives the six bytes ["\xff"], quotes included. *)
Lemma Quote_invalid_byte :
  GoStr.Quote (String (ascii_of_N 0xFF) "")
  = String GoStr.dquote
      (String GoStr.backslash ("xff" ++ String GoStr.dquote "")).
Proof. reflexivity. Qed.

(** A rune that is encoded well and is not printable is printed as [\u]
    and its four digits: U+0080, the bytes 0xc2 0x80. *)
Lemma Quote_control_rune :
  GoStr.Quote (String (ascii_of_N 0xC2) (String (ascii_of_N 0x80) ""))
  = String GoStr.dquote
      (String GoStr.backslash ("u0080" ++ String GoStr.dquote "")).
Proof. reflexivity. Qed.

(** A printable rune of Latin-1 is copied: U+00E9, the bytes 0xc3 0xa9. *)
Lemma Quote_printable_rune :
  GoStr.Quote (String (ascii_of_N 0xC3) (String (ascii_of_N 0xA9) ""))
  = String GoStr.dquote
      (String (ascii_of_N 0xC3)
         (String (ascii_of_N 0xA9) (String GoStr.dquote ""))).
Proof. reflexivity. Qed.

(** A double quote is printed behind a backslash, whatever the tables hold. *)
Lemma Quote_double_quote :
  GoStr.Quote (String GoStr.dquote "")
  = String GoStr.dquote
      (String GoStr.backslash (String GoStr.dquote (String GoStr.dquote ""))).
Proof. reflexivity. Qed.

(** A line feed is printed as a backslash and [n]. *)
Lemma Quote_line_feed :
  GoStr.Quote GoStr.nl
  = String GoStr.dquote (String GoStr.backslash ("n" ++ String GoStr.dquote "")).
Proof. reflexivity. Qed.

End Quoting.

(** C7 (as stated, refuted).  [ErrInvalidValue] of the value that is one
    double quote: the message holds the quote escaped by a backslash, and is
    not the value between two double quotes. *)
Lemma ErrInvalidValue_escapes_quote :
  let v := String GoStr.dquote "" in
  exists fe,
    @ErrInvalidValue no_table v "spec" = Some fe
    /\ Message fe
       = ("invalid value "
          ++ String GoStr.dquote
               (String GoStr.backslash (String GoStr.dquote (String GoStr.dquote ""))))%string
    /\ String.eqb (Message fe)
         ("invalid value " ++ String GoStr.dquote (v ++ String GoStr.dquote ""))
       = false.
Proof. cbv zeta. eexists. split; [reflexivity|]. split; reflexivity. Qed.

Section Constructors.

Context {rt : GoRuntime} {uc : GoStr.GoUnicode}.

(** C7 (amended).  Each constructor returns the leaf with the message, the
    paths and the details of the table; the value in the message of
    [ErrInvalidValue] and [ErrInvalidKeyName] is printed by [%q], which is
    the value between two double quotes whenever the value consists of
    printable ASCII bytes other than the double quote and the backslash; and
    [Error()] on each of these leaves is the message, a colon, the sorted
    paths joined by commas and, for details that are not empty, a line feed
    and the details. *)
Theorem constructors_and_their_rendering :
  (forall ps, ErrMissingField ps = Some (mkFieldError "missing field(s)" ps "" [])
              /\ Error (ErrMissingField ps) = Ok (render "missing field(s)" ps ""))
  /\ (forall ps, ErrDisallowedFields ps
                 = Some (mkFieldError "must not set the field(s)" ps "" [])
              /\ Error (ErrDisallowedFields ps)
                 = Ok (render "must not set the field(s)" ps ""))
  /\ (forall v p, ErrInvalidValue v p
                  = Some (mkFieldError ("invalid value " ++ GoStr.Quote v) [p] "" [])
              /\ Error (ErrInvalidValue v p)
                 = Ok (render ("invalid value " ++ GoStr.Quote v) [p] ""))
  /\ (forall ps, ErrMissingOneOf ps
                 = Some (mkFieldError "expected exactly one, got neither" ps "" [])
              /\ Error (ErrMissingOneOf ps)
                 = Ok (render "expected exactly one, got neither" ps ""))
  /\ (forall ps, ErrMultipleOneOf ps
                 = Some (mkFieldError "expected exactly one, got both" ps "" [])
              /\ Error (ErrMultipleOneOf ps)
                 = Ok (render "expected exactly one, got both" ps ""))
  /\ (forall v p ds, ErrInvalidKeyName v p ds
                     = Some (mkFieldError ("invalid key name " ++ GoStr.Quote v) [p]
                                          (GoStr.Join ds ", ") [])
              /\ Error (ErrInvalidKeyName v p ds)
                 = Ok (render ("invalid key name " ++ GoStr.Quote v) [p]
                              (GoStr.Join ds ", ")))
  /\ (forall v, GoStr.plain v = true ->
                GoStr.Quote v = String GoStr.dquote (v ++ String GoStr.dquote "")).
Proof.
  repeat split; try (apply Error_leaf; [discriminate | reflexivity]).
  apply Quote_plain.
Qed.

End Constructors.

(** The constructors at a plain value: [ErrInvalidValue("blah", "foo")]. *)
Lemma constructors_and_their_rendering_witness :
  GoStr.plain "blah" = true
  /\ @GoStr.Quote no_table "blah"
     = String GoStr.dquote ("blah" ++ String GoStr.dquote "").
Proof.
  split; [reflexivity|].
  apply (proj2 (proj2 (proj2 (proj2 (proj2 (proj2
           (@constructors_and_their_rendering insertion_runtime no_table))))))).
  reflexivity.
Defined.

(** ** Rendering, nil results and the key *)


Section Rendering.

Context {rt : GoRuntime}.


Lemma Also_some_result (fe : option FieldError) (errs : list (option FieldError))
  (r : FieldError) :
  Also fe errs = Ok (Some r) ->
  errors r <> [] /\ Message r = "" /\ Paths r = [] /\ Details r = "".
Proof.
  unfold Also.
  destruct (Also_args _ errs) as [[[|entry entries]|]|p]; simpl;
    try discriminate.
  intros [= <-]. cbn [errors Message Paths Details]. repeat split.
  intros H.
  pose proof (Permutation_length (map_range_perm _ (entry :: entries))) as L.
  rewrite H in L. discriminate.
Qed.

(** C9 (amended).  [ViaField], [ViaIndex], [ViaKey], [ViaFieldIndex] and
    [ViaFieldKey] return nil when the receiver is nil and only then, so also
    for a receiver that is not nil and has no normalized entry; [Also]
    returns an accumulator that is not nil only with a map that is not
    empty, and without arguments it returns nil on the nil receiver and on a
    receiver without normalized entries. *)
Theorem nil_results :
  (forall fe prefix, exists r, ViaField fe prefix = Ok r /\ (r = None <-> fe = None))
  /\ (forall fe i, exists r, ViaIndex fe i = Ok r /\ (r = None <-> fe = None))
  /\ (forall fe k, exists r, ViaKey fe k = Ok r /\ (r = None <-> fe = None))
  /\ (forall fe f i, exists r,
         ViaFieldIndex fe f i = Ok r /\ (r = None <-> fe = None))
  /\ (forall fe f k, exists r,
         ViaFieldKey fe f k = Ok r /\ (r = None <-> fe = None))
  /\ (forall fe errs r, Also fe errs = Ok (Some r) -> errors r <> [])
  /\ Also None [] = Ok None
  /\ (forall fe, getNormalizedErrors fe = [] -> Also (Some fe) [] = Ok None).
Proof.
  split; [exact ViaField_total|].
  split; [intros fe i; apply ViaField_total|].
  split; [intros fe k; apply ViaField_total|].
  split; [intros fe f i; apply ViaField_twice_total|].
  split; [intros fe f k; apply ViaField_twice_total|].
  split; [intros fe errs r H; now apply (Also_some_result fe errs r)|].
  split; [reflexivity|].
  intros fe H. rewrite Also_no_args. now rewrite H.
Qed.

(** C10 (code defect).  The key of a leaf is its message, a hyphen and its
    details, so the leaves ("a-", "b") and ("a", "-b") have the one key
    "a--b".  Normalization of an accumulator that holds both, one nested in
    the other or both nested in a container, merges them into one entry with
    the paths of both.  [Also] finds the entry of the first
    under the key of the second as well, but keeps the paths of the first
    only: the path of the second is lost, not merged. *)
Theorem key_joins_message_and_details :
  let e1 := mkFieldError "a-" ["p"] "b" [] in
  let e2 := mkFieldError "a" ["q"] "-b" [] in
  (forall e, key (Some e) = Ok (Message e ++ "-" ++ Details e)%string)
  /\ key (Some e1) = Ok "a--b" /\ key (Some e2) = Ok "a--b"
  /\ getNormalizedErrors (mkFieldError "a-" ["p"] "b" [("a--b", e2)])
     = [("a--b", mkFieldError "a-" ["p"; "q"] "b" [])]
  /\ getNormalizedErrors (mkFieldError "" [] "" [("k1", e1); ("k2", e2)])
     = [("a--b", mkFieldError "a-" ["p"; "q"] "b" [])]
  /\ Also (Some e1) [Some e2] = Ok (Some (mkFieldError "" [] "" [("a--b", e1)]))
  /\ (r <- Also (Some e1) [Some e2] ;; Error r) = Ok (render "a-" ["p"] "b")
  /\ render "a-" ["p"] "b" <> render "a-" ["p"; "q"] "b".
Proof.
  cbv zeta.
  split; [reflexivity|]. split; [reflexivity|]. split; [reflexivity|].
  split; [|split; [|split; [|split]]].
  - rewrite getNormalizedErrors_eq. cbn [errors collect_nested].
    rewrite getNormalizedErrors_leaf by reflexivity.
    rewrite !normalize_leaf_message by discriminate.
    rewrite map_range_one. reflexivity.
  - rewrite getNormalizedErrors_eq. cbn [errors collect_nested].
    rewrite !getNormalizedErrors_leaf by reflexivity.
    rewrite !normalize_leaf_message by discriminate.
    rewrite !map_range_one. reflexivity.
  - rewrite (Also_present_key _ _ (mkFieldError "a-" ["p"] "b" [])).
    + rewrite getNormalizedErrors_leaf, normalize_leaf_message
        by (reflexivity || discriminate).
      now rewrite map_range_one.
    + now rewrite getNormalizedErrors_leaf, normalize_leaf_message
        by (reflexivity || discriminate).
  - rewrite Also_same_key_keeps_receiver by (reflexivity || discriminate).
    now rewrite Error_leaf by (reflexivity || discriminate).
  - discriminate.
Qed.

End Rendering.

(** C9 (as stated, refuted).  [ViaField] on the accumulator that is not nil
    and holds nothing returns that accumulator, not nil, though it has no
    normalized entry. *)
Lemma ViaField_keeps_empty_accumulator :
  @ViaField insertion_runtime (Some zeroFieldError) ["spec"]
  = Ok (Some zeroFieldError)
  /\ @getNormalizedErrors insertion_runtime zeroFieldError = [].
Proof. split; reflexivity. Qed.

(** The accumulator that is not nil and holds nothing, on which [Also]
    without arguments returns nil, and a leaf, on which it returns an
    accumulator with a map of one entry. *)
Lemma nil_results_witness :
  (@getNormalizedErrors insertion_runtime zeroFieldError = []
   /\ @Also insertion_runtime (Some zeroFieldError) [] = Ok None)
  /\ (let leaf := mkFieldError "hear me roar" ["foo"] "" [] in
      let held := mkFieldError "" [] "" [("hear me roar-", leaf)] in
      @Also insertion_runtime (Some leaf) [] = Ok (Some held)
      /\ errors held <> []).
Proof.
  split; [split; [reflexivity|] | split; [reflexivity|]].
  - apply (proj2 (proj2 (proj2 (proj2 (proj2 (proj2 (proj2
             (@nil_results insertion_runtime)))))))).
    reflexivity.
  - apply (proj1 (proj2 (proj2 (proj2 (proj2 (proj2
             (@nil_results insertion_runtime))))))
             (Some (mkFieldError "hear me roar" ["foo"] "" [])) []).
    reflexivity.
Defined.

(* ================================================================== *)
(** * Further properties of the code *)

(** ** [containsString] and [mergePaths] *)

Lemma containsString_In (l : list string) (s : string) :
  containsString l s = true <-> In s l.
Proof.
  induction l as [|x l IH]; simpl; [split; [discriminate | tauto]|].
  destruct (String.eqb_spec x s) as [->|Hne].
  - split; auto.
  - rewrite IH. split; [auto | intros [H|H]; [contradiction | exact H]].
Qed.

Lemma mergePaths_loop (b acc : list string) :
  exists ext,
    mergePaths acc b = acc ++ ext /\ NoDup ext
    /\ (forall x, In x ext <-> In x b /\ ~ In x acc).
Proof.
  unfold mergePaths. revert acc.
  induction b as [|p b IH]; intros acc; cbn [fold_left].
  - exists []. rewrite app_nil_r.
    split; [reflexivity|]. split; [constructor|]. simpl. tauto.
  - destruct (containsString acc p) eqn:E.
    + apply containsString_In in E.
      destruct (IH acc) as (ext & Heq & Hnd & Hin).
      exists ext. split; [exact Heq|]. split; [exact Hnd|].
      intros x. rewrite Hin. simpl. split; [tauto|].
      intros [[<-|Hx] Hn]; [contradiction | tauto].
    + assert (Hp : ~ In p acc)
        by (intros Hp; apply containsString_In in Hp; congruence).
      destruct (IH (acc ++ [p])) as (ext & Heq & Hnd & Hin).
      exists (p :: ext). rewrite Heq, <- app_assoc.
      split; [reflexivity|]. split.
      * constructor; [|exact Hnd].
        intros Hx. apply Hin in Hx. destruct Hx as [_ Hx].
        apply Hx, in_or_app. right. now left.
      * intros x. simpl. rewrite Hin, in_app_iff. simpl.
        destruct (string_dec p x) as [<-|Hne]; tauto.
Qed.

(** X1.  [mergePaths(a, b)] is [a], as it is, followed by the elements of
    [b] that [a] does not hold, each of them once. *)
Theorem mergePaths_appends_the_new (a b : list string) :
  exists ext,
    mergePaths a b = a ++ ext /\ NoDup ext
    /\ (forall x, In x ext <-> In x b /\ ~ In x a).
Proof. apply mergePaths_loop. Qed.

(** X2.  Merging the same paths a second time changes nothing, and so does
    merging paths that are all there. *)
Theorem mergePaths_absorbs (a b : list string) :
  mergePaths (mergePaths a b) b = mergePaths a b
  /\ (forall c, incl c a -> mergePaths a c = a).
Proof.
  split.
  - apply mergePaths_contained. apply Forall_forall. intros x Hx.
    apply containsString_In.
    destruct (mergePaths_loop b a) as (ext & Heq & _ & Hin). rewrite Heq.
    apply in_or_app. destruct (in_dec string_dec x a) as [Ha|Ha]; [now left|].
    right. apply Hin. now split.
  - intros c Hc. apply mergePaths_contained. apply Forall_forall.
    intros x Hx. apply containsString_In. now apply Hc.
Qed.

(** Lists of paths without repetition: [Paths] of two leaves, merged. *)
Lemma mergePaths_absorbs_witness :
  incl ["foo"] ["bar"; "foo"] /\ mergePaths ["bar"; "foo"] ["foo"] = ["bar"; "foo"].
Proof.
  split.
  - intros x [<-|[]]. right. now left.
  - apply (proj2 (mergePaths_absorbs ["bar"; "foo"] [])).
    intros x [<-|[]]. right. now left.
Defined.

(** ** Maps *)

Lemma map_get_None (A : Type) (k : string) (m : list (string * A)) :
  map_get k m = None <-> ~ In k (map fst m).
Proof.
  induction m as [|[k' v] m IH]; simpl; [tauto|].
  destruct (String.eqb_spec k k') as [->|Hne].
  - split; [discriminate | intros H; exfalso; apply H; now left].
  - rewrite IH. split; [intros H [E|I]; [congruence | contradiction] | tauto].
Qed.

Lemma map_get_In (A : Type) (k : string) (v : A) (m : list (string * A)) :
  map_get k m = Some v -> In (k, v) m.
Proof.
  induction m as [|[k' v'] m IH]; simpl; [discriminate|].
  destruct (String.eqb_spec k k') as [->|Hne].
  - intros [= ->]. now left.
  - intros H. right. now apply IH.
Qed.

Lemma map_get_NoDup_In (A : Type) (k : string) (v : A) (m : list (string * A)) :
  NoDup (map fst m) -> In (k, v) m -> map_get k m = Some v.
Proof.
  induction m as [|[k' v'] m IH]; simpl; [tauto|].
  intros Hnd [E|I].
  - injection E as -> ->. now rewrite String.eqb_refl.
  - inversion Hnd as [|? ? Hk Hnd']; subst.
    destruct (String.eqb_spec k k') as [->|Hne].
    + exfalso. apply Hk. change k' with (fst (k', v)). now apply in_map.
    + now apply IH.
Qed.

Lemma map_set_absent (A : Type) (k : string) (v : A) (m : list (string * A)) :
  map_get k m = None -> map_set k v m = m ++ [(k, v)].
Proof.
  induction m as [|[k' v'] m IH]; simpl; [reflexivity|].
  destruct (String.eqb k k'); [discriminate|]. intros H. now rewrite IH.
Qed.

Lemma map_set_present_keys (A : Type) (k : string) (v v0 : A)
  (m : list (string * A)) :
  map_get k m = Some v0 -> map fst (map_set k v m) = map fst m.
Proof.
  induction m as [|[k' v'] m IH]; simpl; [discriminate|].
  destruct (String.eqb_spec k k') as [->|Hne]; simpl; [reflexivity|].
  intros H. now rewrite IH.
Qed.

Lemma map_set_Forall (A : Type) (P : string * A -> Prop) (k : string) (v : A)
  (m : list (string * A)) :
  Forall P m -> P (k, v) -> Forall P (map_set k v m).
Proof.
  intros Hm Hkv. induction Hm as [|[k' v'] m Hx Hm IH]; simpl.
  - now constructor.
  - destruct (String.eqb k k'); constructor; auto.
Qed.

Lemma map_get_set_same (A : Type) (k : string) (v : A) (m : list (string * A)) :
  map_get k (map_set k v m) = Some v.
Proof.
  induction m as [|[k' v'] m IH]; simpl.
  - now rewrite String.eqb_refl.
  - destruct (String.eqb k k') eqn:E; simpl.
    + now rewrite String.eqb_refl.
    + now rewrite E.
Qed.

Lemma map_get_set_other (A : Type) (k k0 : string) (v : A)
  (m : list (string * A)) :
  k0 <> k -> map_get k0 (map_set k v m) = map_get k0 m.
Proof.
  intros Hne. induction m as [|[k' v'] m IH]; simpl.
  - apply String.eqb_neq in Hne. now rewrite Hne.
  - destruct (String.eqb_spec k k') as [->|Hk]; simpl.
    + apply String.eqb_neq in Hne. now rewrite Hne.
    + now rewrite IH.
Qed.

(** ** Induction on accumulators *)

Lemma FieldError_nested_ind (P : FieldError -> Prop) :
  (forall m ps d nested,
      Forall (fun entry => P (snd entry)) nested ->
      P (mkFieldError m ps d nested)) ->
  forall fe, P fe.
Proof.
  intros H. fix IH 1. intros [m ps d nested]. apply H.
  induction nested as [|[k e] nested IHn]; constructor.
  - apply IH.
  - exact IHn.
Qed.

(** ** The normalized map *)

Lemma normalize_leaf_normal (fe : FieldError) : normal_map (normalize_leaf fe).
Proof.
  unfold normalize_leaf, normal_map.
  destruct (String.eqb_spec (Message fe) "") as [E|E]; simpl.
  - split; constructor.
  - split; [repeat constructor; simpl; tauto|].
    repeat constructor; simpl; auto.
Qed.

Lemma normalize_entry_normal (m : gomap) (entry : string * FieldError) :
  normal_map m -> normal_entry entry -> normal_map (normalize_entry m entry).
Proof.
  intros [Hnd Hall] He. destruct entry as [k err]. unfold normalize_entry.
  destruct (map_get k m) as [v|] eqn:E.
  - split.
    + now rewrite (map_set_present_keys _ _ _ _ _ E).
    + apply map_set_Forall; [exact Hall|].
      apply map_get_In in E. rewrite Forall_forall in Hall.
      destruct (Hall _ E) as (Hm & Hn & Hk).
      destruct v as [vm vp vd vn]. repeat split; assumption.
  - rewrite (map_set_absent _ _ _ _ E). split.
    + rewrite map_app. simpl.
      apply Permutation_NoDup with (l := k :: map fst m).
      * apply Permutation_cons_append.
      * constructor; [now apply map_get_None | exact Hnd].
    + apply Forall_app. split; [exact Hall | constructor; [exact He | constructor]].
Qed.

Lemma fold_normalize_entry_normal (entries : list (string * FieldError))
  (m : gomap) :
  normal_map m -> Forall normal_entry entries ->
  normal_map (fold_left normalize_entry entries m).
Proof.
  revert m. induction entries as [|entry entries IH]; intros m Hm Hall; simpl.
  - exact Hm.
  - inversion Hall; subst. apply IH; [now apply normalize_entry_normal | assumption].
Qed.

Section NormalMaps.

Context {rt : GoRuntime}.

Lemma collect_nested_normal (nested : list (string * FieldError)) (m : gomap) :
  Forall (fun entry => normal_map (getNormalizedErrors (snd entry))) nested ->
  normal_map m -> normal_map (collect_nested nested m).
Proof.
  revert m. induction nested as [|[k e] nested IH]; intros m Hall Hm.
  - exact Hm.
  - inversion Hall as [|? ? He Hrest]; subst. cbn [collect_nested].
    apply IH; [exact Hrest|].
    apply fold_normalize_entry_normal; [exact Hm|].
    eapply Permutation_Forall;
      [apply Permutation_sym, map_range_perm | exact (proj2 He)].
Qed.

Lemma getNormalizedErrors_normal (fe : FieldError) :
  normal_map (getNormalizedErrors fe).
Proof.
  induction fe as [m ps d nested IH] using FieldError_nested_ind.
  rewrite getNormalizedErrors_eq. cbn [errors].
  apply collect_nested_normal; [exact IH | apply normalize_leaf_normal].
Qed.

End NormalMaps.

Lemma filter_Permutation (A : Type) (f : A -> bool) (l1 l2 : list A) :
  Permutation l1 l2 -> Permutation (filter f l1) (filter f l2).
Proof.
  induction 1 as [|x l1 l2 _ IH|x y l|l1 l2 l3 _ IH1 _ IH2]; simpl.
  - constructor.
  - destruct (f x); [now constructor | exact IH].
  - destruct (f x), (f y); try apply Permutation_refl. apply perm_swap.
  - eapply perm_trans; eassumption.
Qed.

Lemma filter_keys_NoDup (A : Type) (f : string * A -> bool)
  (l : list (string * A)) :
  NoDup (map fst l) -> NoDup (map fst (filter f l)).
Proof.
  induction l as [|x l IH]; simpl; intros H; [constructor|].
  inversion H as [|? ? Hx Hl]; subst.
  destruct (f x); simpl; [|now apply IH].
  constructor; [|now apply IH].
  intros Hin. apply Hx. apply in_map_iff in Hin.
  destruct Hin as (y & Hy & Hin). apply in_map_iff. exists y.
  split; [exact Hy|]. now apply (incl_filter f l).
Qed.

Lemma filter_live_normal (m : gomap) :
  Forall normal_entry m -> filter live m = m.
Proof.
  induction 1 as [|entry m (Hm & _) _ IH]; simpl; [reflexivity|].
  unfold live at 1. apply String.eqb_neq in Hm. rewrite Hm. simpl. now rewrite IH.
Qed.

Lemma normal_map_held (m : gomap) : normal_map m -> held_map m.
Proof.
  intros [Hnd Hall]. split; [exact Hnd|].
  eapply Forall_impl; [|exact Hall]. tauto.
Qed.

Section HeldMaps.

Context {rt : GoRuntime}.

(** The loop of [getNormalizedErrors] over a map of normal entries and zero
    values adds the normal ones, in their order. *)
Lemma collect_nested_live (nested : list (string * FieldError)) (acc : gomap) :
  Forall (fun entry => normal_entry entry \/ snd entry = zeroFieldError) nested ->
  NoDup (map fst acc ++ map fst (filter live nested)) ->
  collect_nested nested acc = acc ++ filter live nested.
Proof.
  revert acc. induction nested as [|[k e] nested IH]; intros acc Hall Hnd.
  - simpl. now rewrite app_nil_r.
  - inversion Hall as [|? ? He Hrest]; subst. cbn [collect_nested].
    destruct He as [(Hm & Hn & Hk)|Hz]; cbn [fst snd] in *.
    + assert (Hlive : live (k, e) = true).
      { unfold live. cbn [snd]. apply String.eqb_neq in Hm. now rewrite Hm. }
      cbn [filter] in *. rewrite Hlive in *.
      rewrite (getNormalizedErrors_leaf e Hn), (normalize_leaf_message e Hm).
      rewrite map_range_one. cbn [fold_left normalize_entry].
      assert (He : mkFieldError (Message e) (Paths e) (Details e) [] = e)
        by (destruct e; cbn in Hn; now subst).
      rewrite He, <- Hk.
      assert (Habs : map_get k acc = None).
      { apply map_get_None. cbn [map fst] in Hnd.
        apply NoDup_remove_2 in Hnd. intros Hin. apply Hnd, in_or_app. now left. }
      rewrite Habs, (map_set_absent _ _ _ _ Habs).
      rewrite IH; [now rewrite <- app_assoc | exact Hrest |].
      rewrite map_app, <- app_assoc. exact Hnd.
    + subst e. cbn [filter live snd Message zeroFieldError]. simpl negb.
      cbn [filter] in Hnd.
      rewrite getNormalizedErrors_zero, map_range_nil. cbn [fold_left].
      apply IH; [exact Hrest|]. exact Hnd.
Qed.

(** The normalized entries of a container over such a map are its normal
    entries. *)
Lemma getNormalizedErrors_held (m : gomap) :
  held_map m ->
  getNormalizedErrors (mkFieldError "" [] "" m) = filter live m.
Proof.
  intros [Hnd Hall]. rewrite getNormalizedErrors_eq. cbn [errors].
  change (normalize_leaf (mkFieldError "" [] "" m)) with (@nil (string * FieldError)).
  rewrite collect_nested_live; [reflexivity | exact Hall |].
  simpl. now apply filter_keys_NoDup.
Qed.

(** X3.  The map that [getNormalizedErrors] returns holds leaves only, each
    with a message that is not empty and no nested errors, each under the
    key made of its message and details, and no key twice. *)
Theorem getNormalizedErrors_holds_keyed_leaves (fe : FieldError) :
  NoDup (map fst (getNormalizedErrors fe))
  /\ Forall (fun entry => Message (snd entry) <> "" /\ errors (snd entry) = []
                          /\ fst entry = key_of (snd entry))
            (getNormalizedErrors fe).
Proof. exact (getNormalizedErrors_normal fe). Qed.

(** X4.  Normalization is idempotent: an accumulator that holds the
    normalized map of another has that very map as its normalized map. *)
Theorem getNormalizedErrors_idempotent (fe : FieldError) :
  getNormalizedErrors (mkFieldError "" [] "" (getNormalizedErrors fe))
  = getNormalizedErrors fe.
Proof.
  pose proof (getNormalizedErrors_normal fe) as Hn.
  rewrite getNormalizedErrors_held by now apply normal_map_held.
  apply filter_live_normal, Hn.
Qed.

End HeldMaps.

(** ** What [Also] keeps *)

Section AlsoKeeps.

Context {rt : GoRuntime}.

Lemma Also_arg_held (m : gomap) (e : FieldError) :
  held_map m ->
  exists m', Also_arg (Some m) (Some e) = Ok (Some m')
             /\ held_map m' /\ filter live m' = filter live m.
Proof.
  intros [Hnd Hall].
  unfold Also_arg, key, bind, nilable_get, nilable_set. fold (key_of e).
  destruct (map_get (key_of e) m) as [v|] eqn:E.
  - exists m. rewrite mergePaths_self, set_Paths_same, (map_set_same _ _ _ _ E).
    repeat split; assumption.
  - exists (m ++ [(key_of e, zeroFieldError)]).
    rewrite (map_set_absent _ _ _ _ E). split; [reflexivity|]. split.
    + split.
      * rewrite map_app. simpl.
        apply Permutation_NoDup with (l := key_of e :: map fst m);
          [apply Permutation_cons_append|].
        constructor; [now apply map_get_None | exact Hnd].
      * apply Forall_app. split; [exact Hall|].
        constructor; [now right | constructor].
    + rewrite filter_app. simpl. apply app_nil_r.
Qed.

Lemma Also_args_held (es : list FieldError) (m : gomap) :
  held_map m ->
  exists m', Also_args (Some m) (map Some es) = Ok (Some m')
             /\ held_map m' /\ filter live m' = filter live m.
Proof.
  revert m. induction es as [|e es IH]; intros m Hm.
  - exists m. repeat split; apply Hm.
  - destruct (Also_arg_held m e Hm) as (m1 & H1 & Hh1 & Hf1).
    destruct (IH m1 Hh1) as (m2 & H2 & Hh2 & Hf2).
    exists m2. cbn [map Also_args]. rewrite H1. cbn [bind].
    split; [exact H2|]. split; [exact Hh2 | congruence].
Qed.

Lemma Also_entries_permuted (fe : FieldError) (es : list FieldError) :
  exists r, Also (Some fe) (map Some es) = Ok r
            /\ Permutation (entries_of r) (getNormalizedErrors fe).
Proof.
  pose proof (getNormalizedErrors_normal fe) as Hn.
  destruct (Also_args_held es _ (normal_map_held _ Hn)) as (m & Hm & Hh & Hf).
  rewrite (filter_live_normal _ (proj2 Hn)) in Hf.
  unfold Also, getNormalizedErrors_ptr. rewrite Hm. cbn [bind nilable_len].
  destruct m as [|entry m].
  - exists None. split; [reflexivity|]. simpl in Hf. rewrite <- Hf. constructor.
  - cbn [List.length Nat.eqb]. eexists. split; [reflexivity|].
    cbn [entries_of]. rewrite getNormalizedErrors_held.
    + rewrite <- Hf. apply filter_Permutation, map_range_perm.
    + destruct Hh as [Hnd Hall]. split.
      * eapply Permutation_NoDup; [|exact Hnd].
        apply Permutation_map, Permutation_sym, map_range_perm.
      * eapply Permutation_Forall; [|exact Hall].
        apply Permutation_sym, map_range_perm.
Qed.

(** X5.  On a receiver and arguments that are not nil, [Also] does not
    panic, and what it returns has the normalized entries of the receiver,
    in some order, and no other: the arguments add none. *)
Theorem Also_adds_no_entry (fe : FieldError) (es : list FieldError) :
  exists r, Also (Some fe) (map Some es) = Ok r
            /\ Permutation (entries_of r) (getNormalizedErrors fe).
Proof. apply Also_entries_permuted. Qed.

Lemma Also_one_entry (fe : FieldError) (es : list FieldError)
  (k : string) (e : FieldError) :
  getNormalizedErrors fe = [(k, e)] ->
  exists c, Also (Some fe) (map Some es) = Ok (Some c)
            /\ getNormalizedErrors c = [(k, e)].
Proof.
  intros H. destruct (Also_entries_permuted fe es) as (r & Hr & Hp).
  rewrite H in Hp. apply Permutation_sym, Permutation_length_1_inv in Hp.
  destruct r as [c|]; [|discriminate]. exists c. now split.
Qed.

(** X6.  Called on a leaf with a message, [Also] with arguments that are
    not nil returns an accumulator that renders as the leaf alone, whatever
    the arguments hold. *)
Theorem Also_on_leaf_renders_leaf (a : FieldError) (es : list FieldError) :
  Message a <> "" -> errors a = [] ->
  (r <- Also (Some a) (map Some es) ;; Error r)
  = Ok (render (Message a) (Paths a) (Details a)).
Proof.
  intros Hm He.
  assert (Hn : getNormalizedErrors a
               = [(key_of a, mkFieldError (Message a) (Paths a) (Details a) [])])
    by now rewrite getNormalizedErrors_leaf, normalize_leaf_message.
  destruct (Also_one_entry a es _ _ Hn) as (c & Hc & Hcn).
  rewrite Hc. cbn [bind]. now rewrite (Error_one_entry c _ _ Hcn).
Qed.

End AlsoKeeps.

(** The two leaves of the test of the validators, which differ in message:
    the accumulator renders as the first. *)
Lemma Also_on_leaf_renders_leaf_witness :
  let a := mkFieldError "invalid key name" ["optionalName"] "details" [] in
  let b := mkFieldError "missing field(s)" ["requiredName"] "" [] in
  (Message a <> "" /\ errors a = [])
  /\ (r <- @Also insertion_runtime (Some a) [Some b] ;; Error r)
     = Ok (render "invalid key name" ["optionalName"] "details").
Proof.
  cbv zeta. split; [split; [discriminate | reflexivity]|].
  apply (@Also_on_leaf_renders_leaf insertion_runtime
           (mkFieldError "invalid key name" ["optionalName"] "details" [])
           [mkFieldError "missing field(s)" ["requiredName"] "" []]);
    [discriminate | reflexivity].
Defined.

(** ** What [Error] and the prefixing operations return *)

Lemma append_eq_empty (a b : string) : (a ++ b)%string = "" -> a = "" /\ b = "".
Proof. destruct a; simpl; [auto | discriminate]. Qed.

Lemma Join_eq_empty (l : string) (ls : list string) (sep : string) :
  GoStr.Join (l :: ls) sep = "" -> l = "".
Proof.
  destruct ls as [|l' ls]; cbn [GoStr.Join]; [auto|].
  intros H. now apply append_eq_empty in H.
Qed.

Lemma render_entry_not_empty (e : FieldError) : render_entry e <> "".
Proof.
  unfold render_entry, render. intros H.
  apply append_eq_empty in H. destruct H as [_ H]. discriminate H.
Qed.

Section Outcomes.

Context {rt : GoRuntime}.

(** X7.  [Error()] on an accumulator that is not nil is the empty string
    when the accumulator has no normalized entry, and only then. *)
Theorem Error_empty_iff_no_entry (fe : FieldError) :
  Error (Some fe) = Ok "" <-> getNormalizedErrors fe = [].
Proof.
  split; [|apply Error_hollow].
  unfold Error. intros H. injection H as H.
  pose proof (sort_Slice_perm _ Message
                (map snd (map_range (getNormalizedErrors fe)))) as Hp.
  destruct (sort_Slice Message (map snd (map_range (getNormalizedErrors fe))))
    as [|e entries].
  - apply Permutation_nil in Hp. apply map_eq_nil in Hp.
    pose proof (map_range_perm _ (getNormalizedErrors fe)) as Hq.
    rewrite Hp in Hq. now apply Permutation_nil in Hq.
  - cbn [map] in H. apply Join_eq_empty in H.
    rewrite Error_entry_render in H. now apply render_entry_not_empty in H.
Qed.

Lemma returns_hollow_of (r : FieldError) :
  getNormalizedErrors r = [] -> returns_hollow (Ok (Some r)).
Proof. intros H. exists r. repeat split; [exact H | now apply Error_hollow]. Qed.

Lemma ViaField_returns_hollow (fe : FieldError) (prefix : list string) :
  returns_hollow (ViaField (Some fe) prefix).
Proof.
  destruct (ViaField_some fe prefix) as (r & Hr & Hn). rewrite Hr.
  now apply returns_hollow_of.
Qed.

Lemma ViaField_twice_returns_hollow (fe : FieldError) (p1 p2 : list string) :
  returns_hollow (r <- ViaField (Some fe) p1 ;; ViaField r p2).
Proof.
  destruct (ViaField_some fe p1) as (r & Hr & _). rewrite Hr. cbn [bind].
  apply ViaField_returns_hollow.
Qed.

(** X8.  On every receiver that is not nil, whatever it holds, [ViaField],
    [ViaIndex], [ViaKey], [ViaFieldIndex] and [ViaFieldKey] return an
    accumulator that is not nil, has no normalized entry and renders as the
    empty string. *)
Theorem Via_operations_return_hollow (fe : FieldError) :
  (forall prefix, returns_hollow (ViaField (Some fe) prefix))
  /\ (forall i, returns_hollow (ViaIndex (Some fe) i))
  /\ (forall k, returns_hollow (ViaKey (Some fe) k))
  /\ (forall f i, returns_hollow (ViaFieldIndex (Some fe) f i))
  /\ (forall f k, returns_hollow (ViaFieldKey (Some fe) f k)).
Proof.
  split; [intros; apply ViaField_returns_hollow|].
  split; [intros; apply ViaField_returns_hollow|].
  split; [intros; apply ViaField_returns_hollow|].
  split; intros; apply ViaField_twice_returns_hollow.
Qed.

End Outcomes.

(** ** Normalization loses no path *)

Lemma keeps_entries_refl (m : gomap) : keeps_entries m m.
Proof. intros k e H. exists e. repeat split; auto. apply incl_refl. Qed.

Lemma keeps_entries_trans (m1 m2 m3 : gomap) :
  keeps_entries m1 m2 -> keeps_entries m2 m3 -> keeps_entries m1 m3.
Proof.
  intros H12 H23 k e H.
  destruct (H12 k e H) as (e2 & G2 & M2 & D2 & I2).
  destruct (H23 k e2 G2) as (e3 & G3 & M3 & D3 & I3).
  exists e3. repeat split; try congruence. eapply incl_tran; eassumption.
Qed.

Lemma incl_mergePaths_l (a b : list string) : incl a (mergePaths a b).
Proof.
  destruct (mergePaths_loop b a) as (ext & -> & _). now apply incl_appl, incl_refl.
Qed.

Lemma incl_mergePaths_r (a b : list string) : incl b (mergePaths a b).
Proof.
  destruct (mergePaths_loop b a) as (ext & -> & _ & Hin). intros x Hx.
  apply in_or_app. destruct (in_dec string_dec x a) as [Ha|Ha]; [now left|].
  right. apply Hin. now split.
Qed.

Lemma normalize_entry_keeps (m : gomap) (entry : string * FieldError) :
  keeps_entries m (normalize_entry m entry).
Proof.
  destruct entry as [k' err]. intros k e H. unfold normalize_entry.
  destruct (string_dec k k') as [->|Hne].
  - rewrite H. eexists. rewrite map_get_set_same. split; [reflexivity|].
    destruct e; cbn. repeat split. apply incl_mergePaths_l.
  - exists e. split.
    + destruct (map_get k' m); now rewrite map_get_set_other.
    + repeat split. apply incl_refl.
Qed.

Lemma normalize_entry_adds (m : gomap) (k : string) (err : FieldError) :
  exists e', map_get k (normalize_entry m (k, err)) = Some e'
             /\ incl (Paths err) (Paths e').
Proof.
  unfold normalize_entry. destruct (map_get k m) as [v|]; eexists;
    rewrite map_get_set_same; (split; [reflexivity|]).
  - destruct v; cbn. apply incl_mergePaths_r.
  - apply incl_refl.
Qed.

Lemma fold_normalize_entry_keeps (entries : list (string * FieldError))
  (m : gomap) :
  keeps_entries m (fold_left normalize_entry entries m).
Proof.
  revert m. induction entries as [|entry entries IH]; intros m; simpl.
  - apply keeps_entries_refl.
  - eapply keeps_entries_trans; [apply normalize_entry_keeps | apply IH].
Qed.

Lemma fold_normalize_entry_adds (entries : list (string * FieldError))
  (m : gomap) (k : string) (e : FieldError) :
  In (k, e) entries ->
  exists e', map_get k (fold_left normalize_entry entries m) = Some e'
             /\ incl (Paths e) (Paths e').
Proof.
  revert m. induction entries as [|entry entries IH]; intros m H;
    [destruct H | destruct H as [E|I]]; simpl.
  - subst entry. destruct (normalize_entry_adds m k e) as (e1 & G1 & I1).
    destruct (fold_normalize_entry_keeps entries _ k e1 G1) as (e2 & G2 & _ & _ & I2).
    exists e2. split; [exact G2 | eapply incl_tran; eassumption].
  - now apply IH.
Qed.

Section NoPathLost.

Context {rt : GoRuntime}.

Lemma collect_nested_keeps (nested : list (string * FieldError)) (m : gomap) :
  keeps_entries m (collect_nested nested m).
Proof.
  revert m. induction nested as [|[k e] nested IH]; intros m; cbn [collect_nested].
  - apply keeps_entries_refl.
  - eapply keeps_entries_trans; [apply fold_normalize_entry_keeps | apply IH].
Qed.

Lemma collect_nested_adds (nested : list (string * FieldError)) (m : gomap)
  (k0 : string) (child : FieldError) (k : string) (e : FieldError) :
  In (k0, child) nested -> In (k, e) (getNormalizedErrors child) ->
  exists e', map_get k (collect_nested nested m) = Some e'
             /\ incl (Paths e) (Paths e').
Proof.
  revert m. induction nested as [|[k1 c1] nested IH]; intros m H He;
    [destruct H | destruct H as [E|I]]; cbn [collect_nested].
  - injection E as -> ->.
    assert (Hin : In (k, e) (map_range (getNormalizedErrors child)))
      by (eapply Permutation_in; [apply Permutation_sym, map_range_perm | exact He]).
    destruct (fold_normalize_entry_adds _ m k e Hin) as (e1 & G1 & I1).
    destruct (collect_nested_keeps nested _ k e1 G1) as (e2 & G2 & _ & _ & I2).
    exists e2. split; [exact G2 | eapply incl_tran; eassumption].
  - now apply IH.
Qed.

(** X9.  Normalization loses no path.  The accumulator's own message, if it
    has one, is an entry under its key, with its message and details and all
    of its paths; and every normalized entry of every nested error is found
    under its key in the normalized map of the accumulator, with all of its
    paths. *)
Theorem getNormalizedErrors_loses_no_path (fe : FieldError) :
  (Message fe <> "" ->
   exists e, map_get (key_of fe) (getNormalizedErrors fe) = Some e
             /\ Message e = Message fe /\ Details e = Details fe
             /\ incl (Paths fe) (Paths e))
  /\ (forall k0 child k e,
         In (k0, child) (errors fe) ->
         In (k, e) (getNormalizedErrors child) ->
         exists e', map_get k (getNormalizedErrors fe) = Some e'
                    /\ incl (Paths e) (Paths e')).
Proof.
  rewrite getNormalizedErrors_eq. split.
  - intros Hm.
    apply (collect_nested_keeps (errors fe) (normalize_leaf fe) (key_of fe)
             (mkFieldError (Message fe) (Paths fe) (Details fe) [])).
    rewrite (normalize_leaf_message fe Hm). cbn [map_get].
    now rewrite String.eqb_refl.
  - intros k0 child k e. apply collect_nested_adds.
Qed.

End NoPathLost.

(** A leaf that holds a nested leaf with the same message: the entry holds
    the paths of both. *)
Lemma getNormalizedErrors_loses_no_path_witness :
  let inner := mkFieldError "missing field(s)" ["foo"] "" [] in
  let outer := mkFieldError "missing field(s)" ["bar"] "" [("missing field(s)-", inner)] in
  Message outer <> ""
  /\ In ("missing field(s)-", inner) (errors outer)
  /\ In ("missing field(s)-", inner) (@getNormalizedErrors insertion_runtime inner)
  /\ (exists e, map_get (key_of outer) (@getNormalizedErrors insertion_runtime outer) = Some e
                /\ Message e = Message outer /\ Details e = Details outer
                /\ incl (Paths outer) (Paths e))
  /\ (exists e', map_get "missing field(s)-" (@getNormalizedErrors insertion_runtime outer)
                 = Some e'
                 /\ incl (Paths inner) (Paths e')).
Proof.
  cbv zeta.
  split; [discriminate|]. split; [now left|]. split; [now left|]. split.
  - apply (proj1 (@getNormalizedErrors_loses_no_path insertion_runtime _)).
    discriminate.
  - apply (proj2 (@getNormalizedErrors_loses_no_path insertion_runtime
                    (mkFieldError "missing field(s)" ["bar"] ""
                       [("missing field(s)-",
                         mkFieldError "missing field(s)" ["foo"] "" [])]))
             "missing field(s)-" (mkFieldError "missing field(s)" ["foo"] "" [])).
    + now left.
    + now left.
Defined.

(** ** One rendering, whatever the order of the map *)


Section OneRendering.

Context {rt : GoRuntime}.


End OneRendering.



(** ** [merge] *)

Lemma slice_set_last (A : Type) (front : list A) (c x : A) :
  slice_set (List.length front) x (front ++ [c]) = front ++ [x].
Proof. induction front as [|y front IH]; simpl; [reflexivity | now rewrite IH]. Qed.

Lemma same_entry_true (c e : FieldError) :
  same_entry c e = true <-> Message c = Message e /\ Details c = Details e.
Proof. unfold same_entry. now rewrite andb_true_iff, !String.eqb_eq. Qed.

Lemma covered_self (l : list FieldError) (e : FieldError) : In e l -> covered l e.
Proof. intros H. exists e. repeat split; auto. apply incl_refl. Qed.

Lemma covered_by (l : list FieldError) (e c : FieldError) :
  covered l c -> Message c = Message e -> Details c = Details e ->
  incl (Paths e) (Paths c) -> covered l e.
Proof.
  intros (o & Ho & Hm & Hd & Hi) Hme Hde Hie. exists o.
  repeat split; try congruence. eapply incl_tran; eassumption.
Qed.

Lemma incl_nextPaths (c e : list string) : incl e (c ++ nextPaths c e).
Proof.
  intros p Hp. apply in_or_app. unfold nextPaths.
  destruct (containsString c p) eqn:E.
  - left. now apply containsString_In.
  - right. apply filter_In. split; [exact Hp | now rewrite E].
Qed.

Lemma merge_loop_covers (rest front : list FieldError) (c x : FieldError) :
  In x (front ++ c :: rest) -> covered (merge_loop front c rest) x.
Proof.
  revert front c x. induction rest as [|e rest IH]; intros front c x Hx;
    cbn [merge_loop].
  - now apply covered_self.
  - destruct (same_entry c e) eqn:E.
    + apply same_entry_true in E. destruct E as [Hm Hd].
      set (c' := set_Paths c (Paths c ++ nextPaths (Paths c) (Paths e))).
      assert (Hc' : covered (merge_loop front c' rest) c')
        by (apply IH, in_or_app; right; now left).
      apply in_app_or in Hx. destruct Hx as [Hx|[<-|[<-|Hx]]].
      * apply IH, in_or_app. now left.
      * apply (covered_by _ _ c' Hc'); try reflexivity.
        cbn. now apply incl_appl, incl_refl.
      * apply (covered_by _ _ c' Hc'); cbn; auto. apply incl_nextPaths.
      * apply IH, in_or_app. right. now right.
    + apply IH. rewrite <- app_assoc. exact Hx.
Qed.

Lemma merge_loop_drawn (rest front : list FieldError) (c : FieldError)
  (errors : list FieldError) :
  incl rest errors -> drawn_from errors (front ++ [c]) ->
  drawn_from errors (merge_loop front c rest).
Proof.
  revert front c. induction rest as [|e rest IH]; intros front c Hr Hd;
    cbn [merge_loop]; [exact Hd|].
  assert (He : In e errors) by (apply Hr; now left).
  assert (Hr' : incl rest errors) by (intros y Hy; apply Hr; now right).
  destruct (same_entry c e) eqn:E.
  - apply same_entry_true in E. destruct E as [Hm Hdt].
    apply IH; [exact Hr'|]. intros o Ho. apply in_app_or in Ho.
    destruct Ho as [Ho|[<-|[]]].
    + apply Hd, in_or_app. now left.
    + destruct (Hd c) as [Hex Hpaths]; [apply in_or_app; right; now left|].
      split; [exact Hex|]. cbn. intros p Hp. apply in_app_or in Hp.
      destruct Hp as [Hp|Hp]; [now apply Hpaths|].
      apply filter_In in Hp. exists e. repeat split; auto; tauto.
  - apply IH; [exact Hr'|]. intros o Ho. apply in_app_or in Ho.
    destruct Ho as [Ho|[<-|[]]]; [now apply Hd|].
    split; [now exists e | intros p Hp; exists e; auto].
Qed.

Lemma StronglySorted_remove (A : Type) (R : A -> A -> Prop) (l1 l2 : list A)
  (x : A) :
  StronglySorted R (l1 ++ x :: l2) -> StronglySorted R (l1 ++ l2).
Proof.
  induction l1 as [|y l1 IH]; simpl; intros H; inversion H as [|? ? Hs Hf]; subst.
  - exact Hs.
  - constructor; [now apply IH|].
    apply Forall_app in Hf. destruct Hf as [Hf1 Hf2].
    inversion Hf2; subst. apply Forall_app. now split.
Qed.

Lemma StronglySorted_key_map (A : Type) (k : A -> string) (l : list A) :
  StronglySorted (key_le k) l <-> StronglySorted str_le (map k l).
Proof.
  induction l as [|x l IH]; simpl; split; intros H; try constructor;
    inversion H as [|? ? Hs Hf]; subst.
  - now apply IH.
  - rewrite Forall_map. exact Hf.
  - now apply IH.
  - rewrite Forall_map in Hf. exact Hf.
Qed.

Lemma merge_loop_sorted (rest front : list FieldError) (c : FieldError) :
  StronglySorted (key_le Message) (front ++ c :: rest) ->
  StronglySorted (key_le Message) (merge_loop front c rest).
Proof.
  revert front c. induction rest as [|e rest IH]; intros front c H;
    cbn [merge_loop]; [exact H|].
  destruct (same_entry c e).
  - apply IH. apply StronglySorted_key_map.
    replace (front ++ c :: e :: rest) with ((front ++ [c]) ++ e :: rest) in H
      by now rewrite <- app_assoc.
    apply StronglySorted_remove in H. rewrite <- app_assoc in H.
    apply StronglySorted_key_map in H. rewrite map_app in *. exact H.
  - apply IH. now rewrite <- app_assoc.
Qed.

Lemma adjacent_differ_app (l m : list FieldError) (c : FieldError) :
  adjacent_differ (l ++ [c]) -> adjacent_differ (c :: m) ->
  adjacent_differ (l ++ c :: m).
Proof.
  induction l as [|x l IH]; intros Hl Hm; [exact Hm|].
  destruct l as [|y l].
  - destruct Hl as [Hxc _]. split; assumption.
  - destruct Hl as [Hxy Hl]. split; [exact Hxy | now apply IH].
Qed.

Lemma adjacent_differ_last (l : list FieldError) (c c' : FieldError) :
  Message c' = Message c -> Details c' = Details c ->
  adjacent_differ (l ++ [c]) -> adjacent_differ (l ++ [c']).
Proof.
  intros Hm Hd. induction l as [|x l IH]; intros Hl; [exact I|].
  destruct l as [|y l].
  - destruct Hl as [Hxc _]. split; [|exact I].
    unfold same_entry in *. now rewrite Hm, Hd.
  - destruct Hl as [Hxy Hl]. split; [exact Hxy | now apply IH].
Qed.

Lemma merge_loop_adjacent (rest front : list FieldError) (c : FieldError) :
  adjacent_differ (front ++ [c]) -> adjacent_differ (merge_loop front c rest).
Proof.
  revert front c. induction rest as [|e rest IH]; intros front c H;
    cbn [merge_loop]; [exact H|].
  destruct (same_entry c e) eqn:E.
  - apply IH. now apply (adjacent_differ_last front c).
  - apply IH. rewrite <- app_assoc. apply adjacent_differ_app; [exact H|].
    split; [exact E | exact I].
Qed.


(** *** Slices in a memory *)

Lemma slice_set_self (A : Type) (i : nat) (l : list A) (d : A) :
  slice_set i (nth i l d) l = l.
Proof.
  revert i. induction l as [|y l IH]; intros [|i]; simpl; try reflexivity.
  now rewrite IH.
Qed.

Lemma length_slice_set (A : Type) (i : nat) (x : A) (l : list A) :
  List.length (slice_set i x l) = List.length l.
Proof.
  revert i. induction l as [|y l IH]; intros [|i]; simpl; try reflexivity.
  now rewrite IH.
Qed.

Lemma nth_slice_set_same (A : Type) (i : nat) (x d : A) (l : list A) :
  i < List.length l -> nth i (slice_set i x l) d = x.
Proof.
  revert i. induction l as [|y l IH]; intros [|i] H; simpl in *; try lia.
  - reflexivity.
  - apply IH. lia.
Qed.

Lemma nth_slice_set_other (A : Type) (i j : nat) (x d : A) (l : list A) :
  j <> i -> nth j (slice_set i x l) d = nth j l d.
Proof.
  revert i j. induction l as [|y l IH]; intros [|i] [|j] H; simpl;
    try reflexivity; try lia.
  apply IH. lia.
Qed.

Lemma write_at_nil (a : list string) (i : nat) : write_at a i [] = a.
Proof.
  unfold write_at. cbn [List.length app]. rewrite Nat.add_0_r.
  apply firstn_skipn.
Qed.

Lemma length_write_at (a xs : list string) (i : nat) :
  i + List.length xs <= List.length a ->
  List.length (write_at a i xs) = List.length a.
Proof.
  intros H. unfold write_at.
  rewrite !length_app, length_firstn, length_skipn. lia.
Qed.

(** Written behind the elements of a slice, [xs] follows them. *)
Lemma read_write_at (a xs : list string) (off len : nat) :
  off + len + List.length xs <= List.length a ->
  firstn (len + List.length xs) (skipn off (write_at a (off + len) xs))
  = firstn len (skipn off a) ++ xs.
Proof.
  intros H. unfold write_at.
  rewrite skipn_app, length_firstn.
  replace (off - Nat.min (off + len) (List.length a)) with 0 by lia.
  cbn [skipn].
  assert (Hl : List.length (skipn off (firstn (off + len) a)) = len)
    by (rewrite length_skipn, length_firstn; lia).
  rewrite <- Hl at 1. rewrite firstn_app_2.
  rewrite firstn_app, firstn_all, Nat.sub_diag. cbn [firstn].
  rewrite app_nil_r. now rewrite firstn_skipn_comm.
Qed.

Lemma length_slice_elems (mem : memory) (s : slice) :
  fits mem s -> List.length (slice_elems mem s) = s_len s.
Proof.
  intros [Hl [Hc|Hc]]; unfold slice_elems; rewrite length_firstn, length_skipn; lia.
Qed.

Lemma tight_fits (mem : memory) (s : slice) : tight mem s -> fits mem s.
Proof. intros [Hc [Hl|Hl]]; split; try lia. Qed.

Lemma tight_reads_below (mem : memory) (s : slice) :
  tight mem s -> reads_below (List.length mem) s.
Proof.
  intros [_ [Hl|Hl]]; [now left|].
  destruct (Nat.lt_ge_cases (s_array s) (List.length mem)) as [H|H];
    [now right|].
  left. rewrite nth_overflow in Hl by exact H. simpl in Hl. lia.
Qed.

Lemma slice_elems_agree (b : nat) (mem mem' : memory) (s : slice) :
  agree_below b mem mem' -> reads_below b s ->
  slice_elems mem' s = slice_elems mem s.
Proof.
  intros Ha [Hl|Hb]; unfold slice_elems.
  - now rewrite Hl.
  - now rewrite (Ha _ Hb).
Qed.

Lemma reads_below_le (b b' : nat) (s : slice) :
  b <= b' -> reads_below b s -> reads_below b' s.
Proof. intros H [Hl|Hb]; [now left | right; lia]. Qed.

Lemma view_agree (b : nat) (mem mem' : memory) (l : list StoredError) :
  agree_below b mem mem' ->
  Forall (fun x => reads_below b (st_Paths x)) l ->
  map (view mem') l = map (view mem) l.
Proof.
  intros Ha Hf. apply map_ext_in. intros x Hx. unfold view.
  rewrite Forall_forall in Hf.
  now rewrite (slice_elems_agree b mem mem' _ Ha (Hf x Hx)).
Qed.

Lemma tight_agree (b : nat) (mem mem' : memory) (s : slice) :
  agree_below b mem mem' -> reads_below b s -> tight mem s -> tight mem' s.
Proof.
  intros Ha Hr [Hc Hl]. split; [exact Hc|].
  destruct Hr as [Hr|Hr]; [now left|].
  now rewrite (Ha _ Hr).
Qed.

Section Append.

Context {al : GoAlloc}.

(** [append] on such a slice: the slice it returns holds the elements of the
    old one and the new ones, and no array below some [b'] has changed,
    where [b'] is such that the new slice is again one to append to and
    every slice that read below [b] reads below [b']. *)
Lemma slice_append_appendable (b : nat) (mem : memory) (s : slice)
  (xs : list string) :
  appendable b mem s ->
  exists b',
    b <= b'
    /\ (forall t, reads_below b t ->
          slice_elems (fst (slice_append mem s xs)) t = slice_elems mem t)
    /\ (forall t, reads_below b t -> tight mem t ->
          tight (fst (slice_append mem s xs)) t)
    /\ slice_elems (fst (slice_append mem s xs)) (snd (slice_append mem s xs))
       = slice_elems mem s ++ xs
    /\ appendable b' (fst (slice_append mem s xs)) (snd (slice_append mem s xs)).
Proof.
  intros (Hb & Hfit & Hown). unfold slice_append.
  destruct (s_len s + List.length xs <=? s_cap s)%nat eqn:E; cbn [fst snd].
  - apply Nat.leb_le in E.
    destruct xs as [|x xs].
    + (* nothing is appended *)
      rewrite write_at_nil, slice_set_self. exists b.
      split; [lia|].
      split; [reflexivity|]. split; [auto|].
      cbn [List.length]. rewrite Nat.add_0_r, app_nil_r.
      split; [now destruct s|].
      split; [exact Hb|]. split; [exact Hfit|]. exact Hown.
    + (* the write goes into the array [b] *)
      cbn [List.length] in E.
      destruct Hown as [[Hc _]|[Ha Hlt]]; [lia|].
      destruct Hfit as [Hl [Hc|Hc]]; [lia|].
      set (a' := write_at (nth (s_array s) mem []) (s_off s + s_len s) (x :: xs)).
      assert (Hagree : agree_below b mem (slice_set (s_array s) a' mem)).
      { intros j Hj. apply nth_slice_set_other. lia. }
      assert (Hnth : nth (s_array s) (slice_set (s_array s) a' mem) [] = a').
      { apply nth_slice_set_same. lia. }
      exists b. split; [lia|].
      split; [intros t Ht; now apply (slice_elems_agree b)|].
      split; [intros t Ht; now apply (tight_agree b)|].
      split.
      * unfold slice_elems at 1. cbn [s_array s_off s_len]. rewrite Hnth.
        unfold a'. apply read_write_at. cbn [List.length]. lia.
      * split; [now rewrite length_slice_set|].
        split.
        -- split; cbn [s_len s_cap s_off s_array]; [cbn [List.length]; lia|].
           right. rewrite Hnth. unfold a'. rewrite length_write_at; [lia|].
           cbn [List.length]. lia.
        -- right. cbn [s_array]. rewrite length_slice_set. split; [exact Ha | exact Hlt].
  - apply Nat.leb_gt in E.
    set (needed := s_len s + List.length xs) in *.
    set (newcap := grown_cap (s_cap s) needed).
    assert (Hcap : needed <= newcap) by apply grown_cap_fits.
    set (a' := slice_elems mem s ++ xs ++ repeat EmptyString (newcap - needed)).
    assert (Hagree : agree_below (List.length mem) mem (mem ++ [a'])).
    { intros j Hj. now apply app_nth1. }
    assert (Hagree' : agree_below b mem (mem ++ [a'])).
    { intros j Hj. apply Hagree. lia. }
    assert (Hlen : List.length (slice_elems mem s) = s_len s)
      by now apply length_slice_elems.
    assert (Hnth : nth (List.length mem) (mem ++ [a']) [] = a').
    { rewrite app_nth2 by lia. now rewrite Nat.sub_diag. }
    exists (List.length mem). split; [exact Hb|].
    split; [intros t Ht; now apply (slice_elems_agree b)|].
    split; [intros t Ht; now apply (tight_agree b)|].
    split.
    + unfold slice_elems at 1. cbn [s_array s_off s_len skipn]. rewrite Hnth.
      unfold a'. rewrite app_assoc.
      assert (Hl2 : List.length (slice_elems mem s ++ xs) = needed)
        by (rewrite length_app; unfold needed; lia).
      rewrite <- Hl2, <- (Nat.add_0_r (List.length _)), firstn_app_2.
      cbn [firstn]. now rewrite app_nil_r.
    + split; [rewrite length_app; cbn; lia|].
      split.
      * split; cbn [s_len s_cap s_off s_array]; [exact Hcap|].
        right. rewrite Hnth. unfold a'.
        rewrite !length_app, repeat_length, Hlen. unfold needed in *. lia.
      * right. cbn [s_array]. rewrite length_app. cbn. lia.
Qed.

End Append.

(** *** The loop of [merge] *)

Section MergeLoop.

Context {al : GoAlloc}.

Lemma merge_step_loop (rest : list StoredError) (mem : memory)
  (front : list StoredError) (c : StoredError) :
  (let '(mem', newErrors, _) :=
     fold_left merge_step rest (mem, front ++ [c], List.length front) in
   (mem', newErrors))
  = merge_loop_in mem front c rest.
Proof.
  revert mem front c. induction rest as [|e rest IH]; intros mem front c;
    [reflexivity|].
  cbn [fold_left merge_loop_in]. unfold merge_step at 2.
  rewrite nth_middle. fold (same_stored c e). destruct (same_stored c e).
  - destruct (slice_append mem (st_Paths c) _) as [mem' paths].
    rewrite slice_set_last. apply IH.
  - rewrite length_app. cbn [List.length].
    replace (List.length (front ++ [c]) + 1 - 1) with (List.length (front ++ [c]))
      by lia.
    apply IH.
Qed.

Lemma merge_sorted_loop (mem : memory) (e0 : StoredError)
  (rest : list StoredError) :
  merge_sorted mem (e0 :: rest) = merge_loop_in mem [] e0 rest.
Proof. unfold merge_sorted. cbn [skipn nth]. apply (merge_step_loop rest mem []). Qed.

Lemma same_stored_shape (c e : StoredError) (pc pe : FieldError) :
  st_shape c = shape pc -> st_shape e = shape pe ->
  same_stored c e = same_entry pc pe.
Proof.
  unfold st_shape, shape, same_stored, same_entry.
  intros H1 H2. injection H1 as -> ->. injection H2 as -> ->. reflexivity.
Qed.

(** The messages and the details of what the loop leaves are those the loop
    on values leaves, whatever the slices and the memory are. *)
Lemma merge_loop_in_shape (rest : list StoredError) (mem : memory)
  (front : list StoredError) (c : StoredError)
  (pfront : list FieldError) (pc : FieldError) (prest : list FieldError) :
  map st_shape front = map shape pfront ->
  st_shape c = shape pc ->
  map st_shape rest = map shape prest ->
  map st_shape (snd (merge_loop_in mem front c rest))
  = map shape (merge_loop pfront pc prest).
Proof.
  revert mem front c pfront pc prest.
  induction rest as [|e rest IH]; intros mem front c pfront pc prest Hf Hc Hr;
    destruct prest as [|pe prest]; try discriminate Hr.
  - cbn [merge_loop_in merge_loop snd]. rewrite !map_app, Hf. cbn [map].
    now rewrite Hc.
  - cbn [map] in Hr.
    assert (He : st_shape e = shape pe) by congruence.
    assert (Hr0 : map st_shape rest = map shape prest) by congruence.
    clear Hr. rename Hr0 into Hr.
    cbn [merge_loop_in merge_loop].
    rewrite (same_stored_shape c e pc pe Hc He).
    destruct (same_entry pc pe).
    + destruct (slice_append mem (st_Paths c) _) as [mem' paths].
      apply IH; [exact Hf | exact Hc | exact Hr].
    + apply IH; [|exact He | exact Hr].
      rewrite !map_app, Hf. cbn [map]. now rewrite Hc.
Qed.

Lemma shape_view (mem : memory) (l : list StoredError) :
  map shape (map (view mem) l) = map st_shape l.
Proof. rewrite map_map. reflexivity. Qed.

Lemma same_entry_view (mem : memory) (c e : StoredError) :
  same_entry (view mem c) (view mem e) = same_stored c e.
Proof. reflexivity. Qed.

(** The loop of [merge] computes what the loop on values computes, when the
    slice of [newErrors[curr]] is one to append to, the slices that precede
    it read other arrays and those that follow are tight. *)
Lemma merge_loop_in_values (rest : list StoredError) (b : nat) (mem : memory)
  (front : list StoredError) (c : StoredError) :
  Forall (fun x => reads_below b (st_Paths x)) front ->
  appendable b mem (st_Paths c) ->
  Forall (fun x => reads_below b (st_Paths x) /\ tight mem (st_Paths x)) rest ->
  map (view (fst (merge_loop_in mem front c rest)))
      (snd (merge_loop_in mem front c rest))
  = merge_loop (map (view mem) front) (view mem c) (map (view mem) rest).
Proof.
  revert b mem front c.
  induction rest as [|e rest IH]; intros b mem front c Hf Hc Hr.
  - cbn [merge_loop_in merge_loop fst snd map]. now rewrite map_app.
  - cbn [merge_loop_in merge_loop map]. rewrite same_entry_view.
    inversion Hr as [|? ? [Heb Het] Hr']; subst.
    destruct (same_stored c e).
    + set (xs := nextPaths (slice_elems mem (st_Paths c))
                           (slice_elems mem (st_Paths e))).
      destruct (slice_append_appendable b mem (st_Paths c) xs Hc)
        as (b' & Hbb & Hsame & Htight & Helems & Happ).
      destruct (slice_append mem (st_Paths c) xs) as [mem' paths] eqn:E.
      cbn [fst snd] in *.
      rewrite (IH b' mem' front (set_st_Paths c paths)).
      * f_equal.
        -- apply map_ext_in. intros x Hx. unfold view.
           rewrite Forall_forall in Hf. now rewrite (Hsame _ (Hf x Hx)).
        -- unfold view, set_Paths, set_st_Paths. cbn. now rewrite Helems.
        -- apply map_ext_in. intros x Hx. unfold view.
           rewrite Forall_forall in Hr'. now rewrite (Hsame _ (proj1 (Hr' x Hx))).
      * eapply Forall_impl; [|exact Hf]. intros x Hx.
        now apply (reads_below_le b).
      * exact Happ.
      * eapply Forall_impl; [|exact Hr']. intros x [Hx1 Hx2].
        split; [now apply (reads_below_le b) | now apply Htight].
    + rewrite (IH (List.length mem) mem (front ++ [c]) e).
      * now rewrite map_app.
      * apply Forall_app. split.
        -- eapply Forall_impl; [|exact Hf]. intros x Hx.
           apply (reads_below_le b); [apply Hc | exact Hx].
        -- constructor; [|constructor].
           destruct Hc as (Hb & _ & [[_ Hc]|[Hc Hlt]]).
           ++ now apply (reads_below_le b).
           ++ right. lia.
      * split; [lia|]. split; [now apply tight_fits|].
        left. split; [apply Het | now apply tight_reads_below].
      * eapply Forall_impl; [|exact Hr']. intros x [Hx1 Hx2].
        split; [now apply tight_reads_below | exact Hx2].
Qed.

End MergeLoop.

Lemma sorted_by_shape (l l' : list FieldError) :
  map shape l = map shape l' ->
  StronglySorted (key_le Message) l -> StronglySorted (key_le Message) l'.
Proof.
  intros H Hs. apply StronglySorted_key_map. apply StronglySorted_key_map in Hs.
  replace (map Message l') with (map fst (map shape l'))
    by (rewrite map_map; reflexivity).
  rewrite <- H, map_map. exact Hs.
Qed.

Lemma adjacent_differ_by_shape (l l' : list FieldError) :
  map shape l = map shape l' -> adjacent_differ l -> adjacent_differ l'.
Proof.
  revert l'. induction l as [|x l IH]; intros [|x' l'] H; try discriminate H;
    try (intros _; exact I).
  cbn [map] in H.
  assert (Hx : shape x = shape x') by congruence.
  assert (Hl : map shape l = map shape l') by congruence.
  clear H. intros Ha.
  destruct l as [|y l]; destruct l' as [|y' l']; try discriminate Hl;
    [exact I|].
  destruct Ha as [Hxy Ha]. split; [|now apply IH].
  cbn [map] in Hl.
  assert (Hy : shape y = shape y') by congruence.
  unfold shape in Hx, Hy. unfold same_entry in *.
  replace (Message x') with (Message x) by congruence.
  replace (Details x') with (Details x) by congruence.
  replace (Message y') with (Message y) by congruence.
  replace (Details y') with (Details y) by congruence.
  exact Hxy.
Qed.

Section Merge.

Context {rt : GoRuntime} {al : GoAlloc}.

Lemma merge_cases (mem : memory) (errors : list StoredError) :
  merge mem errors = (mem, errors) /\ (List.length errors <= 1)%nat
  \/ exists e0 rest,
       merge mem errors = merge_loop_in mem [] e0 rest
       /\ Permutation (e0 :: rest) errors
       /\ StronglySorted (key_le st_Message) (e0 :: rest).
Proof.
  unfold merge. destruct (List.length errors <=? 1)%nat eqn:E.
  - left. split; [reflexivity | now apply Nat.leb_le].
  - right. apply Nat.leb_gt in E.
    pose proof (sort_Slice_perm _ st_Message errors) as Hp.
    pose proof (sort_Slice_sorted _ st_Message errors) as Hs.
    destruct (sort_Slice st_Message errors) as [|e0 rest].
    + apply Permutation_length in Hp. simpl in Hp. lia.
    + exists e0, rest. rewrite merge_sorted_loop. repeat split; assumption.
Qed.

(** X11.  [merge] loses nothing and invents nothing when the [Paths] of
    every entry it is given is a slice without spare capacity: every entry
    given is covered by an entry of the result with the same message and
    details and all of its paths, and every entry of the result has the
    message and details of an entry given, and paths of entries given with
    that message and those details only.  The entries given are read in the
    memory before the call, the result in the memory after it. *)
Theorem merge_keeps_every_path (mem : memory) (errors : list StoredError) :
  Forall (fun e => tight mem (st_Paths e)) errors ->
  (forall e, In e errors -> covered (merged mem errors) (view mem e))
  /\ drawn_from (map (view mem) errors) (merged mem errors).
Proof.
  intros Ht. unfold merged.
  destruct (merge_cases mem errors) as [[-> _]|(e0 & rest & -> & Hp & _)];
    cbn [fst snd].
  - split; [intros e He; now apply covered_self, in_map|].
    intros o Ho. split; [now exists o | intros p Hp; exists o; auto].
  - assert (Ht' : Forall (fun e => tight mem (st_Paths e)) (e0 :: rest)).
    { rewrite Forall_forall in *. intros x Hx. apply Ht.
      eapply Permutation_in; [exact Hp | exact Hx]. }
    inversion Ht' as [|? ? Ht0 Htr]; subst.
    rewrite (merge_loop_in_values rest (List.length mem) mem [] e0).
    + cbn [map]. split.
      * intros e He. apply merge_loop_covers. cbn [app].
        change (In (view mem e) (map (view mem) (e0 :: rest))).
        apply in_map.
        eapply Permutation_in; [apply Permutation_sym; exact Hp | exact He].
      * apply merge_loop_drawn.
        -- intros x Hx. apply in_map_iff in Hx. destruct Hx as (y & <- & Hy).
           apply in_map. eapply Permutation_in; [exact Hp | now right].
        -- intros o [<-|[]].
           assert (He0 : In (view mem e0) (map (view mem) errors)).
           { apply in_map. eapply Permutation_in; [exact Hp | now left]. }
           split; [now exists (view mem e0)
                  | intros p Hpp; exists (view mem e0); auto].
    + constructor.
    + split; [lia|]. split; [now apply tight_fits|].
      left. split; [apply Ht0 | now apply tight_reads_below].
    + eapply Forall_impl; [|exact Htr]. intros x Hx.
      split; [now apply tight_reads_below | exact Hx].
Qed.

(** X12.  What [merge] returns is in ascending order of the messages, and no
    entry of it is followed by an entry with the same message and details. *)
Theorem merge_sorts_and_joins_neighbours (mem : memory)
  (errors : list StoredError) :
  StronglySorted (fun a b => str_le (Message a) (Message b)) (merged mem errors)
  /\ adjacent_differ (merged mem errors).
Proof.
  unfold merged.
  destruct (merge_cases mem errors) as [[-> Hlen]|(e0 & rest & -> & _ & Hs)];
    cbn [fst snd].
  - destruct errors as [|x [|y errors]]; simpl in Hlen; try lia.
    + split; [constructor | exact I].
    + split; [repeat constructor | exact I].
  - set (out := merge_loop_in mem [] e0 rest).
    assert (Hshape : map shape (merge_loop [] (view mem e0) (map (view mem) rest))
                     = map shape (map (view (fst out)) (snd out))).
    { rewrite shape_view. symmetry.
      apply merge_loop_in_shape; [reflexivity | reflexivity|].
      now rewrite shape_view. }
    split.
    + apply (sorted_by_shape _ _ Hshape). apply merge_loop_sorted. cbn [app].
      apply StronglySorted_key_map. apply StronglySorted_key_map in Hs.
      change (view mem e0 :: map (view mem) rest)
        with (map (view mem) (e0 :: rest)).
      rewrite map_map. exact Hs.
    + apply (adjacent_differ_by_shape _ _ Hshape). now apply merge_loop_adjacent.
Qed.

(** [append] writes into a shared array: of the array of ["a"] and ["x"],
    one entry holds the first element with room for one more, and another
    the second.  When [sort.Slice] leaves the entry of ["q"] between them,
    ["q"] is written over ["x"], and the result holds ["a"] and ["q"] and not
    ["x"]. *)
Lemma merge_overwrites_shared_array :
  let mem := [["a"; "x"]; ["q"]] in
  let errors := [mkStoredError "m" (mkSlice 0 0 1 2) "" [];
                 mkStoredError "m" (mkSlice 1 0 1 1) "" [];
                 mkStoredError "m" (mkSlice 0 1 1 1) "" []] in
  map (view mem) errors
  = [mkFieldError "m" ["a"] "" []; mkFieldError "m" ["q"] "" [];
     mkFieldError "m" ["x"] "" []]
  /\ map (view (fst (merge_sorted mem errors))) (snd (merge_sorted mem errors))
     = [mkFieldError "m" ["a"; "q"] "" []]
  /\ @sort_Slice insertion_runtime _ st_Message (rev errors) = errors
  /\ @merged insertion_runtime al mem (rev errors)
     = [mkFieldError "m" ["a"; "q"] "" []].
Proof. repeat split; reflexivity. Qed.

End Merge.

(** [merge] on two entries with one message, each with a path in an array
    of its own. *)
Lemma merge_keeps_every_path_witness :
  let mem := [["a"]; ["b"]] in
  let errors := [mkStoredError "m" (mkSlice 0 0 1 1) "" [];
                 mkStoredError "m" (mkSlice 1 0 1 1) "" []] in
  Forall (fun e => tight mem (st_Paths e)) errors
  /\ (forall e, In e errors ->
        covered (@merged insertion_runtime doubling_alloc mem errors) (view mem e))
  /\ drawn_from (map (view mem) errors)
                (@merged insertion_runtime doubling_alloc mem errors).
Proof.
  cbv zeta.
  assert (H : Forall (fun e => tight [["a"]; ["b"]] (st_Paths e))
                [mkStoredError "m" (mkSlice 0 0 1 1) "" [];
                 mkStoredError "m" (mkSlice 1 0 1 1) "" []]).
  { repeat constructor; cbn; lia. }
  split; [exact H|].
  exact (@merge_keeps_every_path insertion_runtime doubling_alloc _ _ H).
Defined.


(** ** [strings.Split] and [strings.Join] on dots *)

Lemma free_of_app (c : ascii) (a b : string) :
  free_of c (a ++ b) = free_of c a && free_of c b.
Proof.
  induction a as [|d a IH]; simpl; [reflexivity|].
  rewrite IH. now rewrite andb_assoc.
Qed.

Lemma Split_not_nil (s : string) (c : ascii) : GoStr.Split s c <> [].
Proof.
  destruct s as [|d s]; simpl; [discriminate|].
  destruct (Ascii.eqb d c); [discriminate|].
  destruct (GoStr.Split s c); discriminate.
Qed.

Lemma Split_free (s : string) (c : ascii) :
  free_of c s = true -> GoStr.Split s c = [s].
Proof.
  induction s as [|d s IH]; simpl; [reflexivity|].
  intros H. apply andb_true_iff in H. destruct H as [Hd Hs].
  apply negb_true_iff in Hd. rewrite Hd, (IH Hs). reflexivity.
Qed.

Lemma Split_app_sep (a b : string) (c : ascii) :
  free_of c a = true ->
  GoStr.Split (a ++ String c b) c = a :: GoStr.Split b c.
Proof.
  induction a as [|d a IH]; simpl.
  - intros _. now rewrite Ascii.eqb_refl.
  - intros H. apply andb_true_iff in H. destruct H as [Hd Ha].
    apply negb_true_iff in Hd. rewrite Hd, (IH Ha). reflexivity.
Qed.

Lemma Split_pieces_free (s : string) (c : ascii) :
  Forall (fun p => free_of c p = true) (GoStr.Split s c).
Proof.
  induction s as [|d s IH]; simpl; [repeat constructor|].
  destruct (Ascii.eqb d c) eqn:E; [constructor; [reflexivity | exact IH]|].
  destruct (GoStr.Split s c) as [|piece pieces]; [repeat constructor; simpl; now rewrite E|].
  inversion IH; subst. constructor; [simpl; now rewrite E | assumption].
Qed.

(** Splitting what [Join] made of pieces without dots gives the pieces. *)
Lemma Split_Join (segs : list string) :
  segs <> [] -> Forall (fun p => free_of "." p = true) segs ->
  GoStr.Split (GoStr.Join segs ".") "." = segs.
Proof.
  induction segs as [|a segs IH]; intros Hne Hall; [congruence|].
  inversion Hall as [|? ? Ha Hsegs]; subst.
  destruct segs as [|b segs].
  - now apply Split_free.
  - change (GoStr.Join (a :: b :: segs) ".")
      with (a ++ String "." (GoStr.Join (b :: segs) "."))%string.
    rewrite (Split_app_sep _ _ _ Ha), IH; [reflexivity | discriminate | exact Hsegs].
Qed.

(** ** The segments of [flatten] *)

Lemma flatten_by_pieces (path : list string) :
  flatten path
  = GoStr.Join (fold_left flatten_piece (flatten_pieces path) []) ".".
Proof.
  unfold flatten, flatten_pieces.
  now rewrite fold_flatten_part, fold_flatten_piece_filter.
Qed.

Lemma flatten_pieces_app (p q : list string) :
  flatten_pieces (p ++ q) = flatten_pieces p ++ flatten_pieces q.
Proof. unfold flatten_pieces. now rewrite map_app, concat_app, filter_app. Qed.

Lemma flatten_pieces_spec (path : list string) :
  Forall (fun p => p <> CurrentField /\ free_of "." p = true) (flatten_pieces path).
Proof.
  unfold flatten_pieces. apply Forall_forall. intros p Hp.
  apply filter_In in Hp. destruct Hp as [Hin Hne]. split.
  - apply negb_true_iff in Hne. now apply String.eqb_neq.
  - apply in_concat in Hin. destruct Hin as (l & Hl & Hp).
    apply in_map_iff in Hl. destruct Hl as (part & <- & _).
    pose proof (Split_pieces_free part ".") as H. rewrite Forall_forall in H. now apply H.
Qed.

Lemma set_last_snoc (l : list string) (x y : string) :
  set_last (l ++ [x]) y = l ++ [y].
Proof. unfold set_last. now rewrite removelast_last. Qed.

Lemma flatten_piece_snoc (l : list string) (x p : string) :
  p <> CurrentField ->
  flatten_piece (l ++ [x]) p
  = if isIndex p then l ++ [(x ++ p)%string] else (l ++ [x]) ++ [p].
Proof.
  intros Hp. unfold flatten_piece. apply String.eqb_neq in Hp. rewrite Hp.
  rewrite length_app. cbn [List.length].
  replace (0 <? List.length l + 1)%nat with true
    by (symmetry; apply Nat.ltb_lt; lia).
  cbn [andb]. destruct (isIndex p); [|reflexivity].
  now rewrite set_last_snoc, last_last.
Qed.

Lemma flatten_piece_nil (p : string) :
  p <> CurrentField -> flatten_piece [] p = [p].
Proof. intros Hp. unfold flatten_piece. apply String.eqb_neq in Hp. now rewrite Hp. Qed.

Lemma exists_last_or_nil (A : Type) (l : list A) :
  l = [] \/ exists l' a, l = l' ++ [a].
Proof.
  destruct l as [|x l]; [now left|]. right.
  destruct (@exists_last _ (x :: l)) as (l' & a & H); [discriminate|]. eauto.
Qed.

Lemma HasPrefix_app (a b : string) (p : ascii) :
  a <> "" -> GoStr.HasPrefix (a ++ b) (String p "") = GoStr.HasPrefix a (String p "").
Proof.
  destruct a as [|c a]; [congruence|]. intros _. unfold GoStr.HasPrefix. simpl.
  destruct (ascii_dec p c); [|reflexivity].
  destruct (a ++ b)%string; destruct a; reflexivity.
Qed.

Lemma HasSuffix_app (a b suffix : string) :
  GoStr.HasSuffix b suffix = true -> GoStr.HasSuffix (a ++ b) suffix = true.
Proof.
  intros H. apply HasSuffix_iff in H. destruct H as [t ->].
  apply HasSuffix_iff. exists (a ++ t)%string. now rewrite append_assoc.
Qed.

Lemma good_segment_glue (l p : string) :
  good_segment l -> good_segment p -> isIndex p = true ->
  good_segment (l ++ p) /\ isIndex (l ++ p) = isIndex l.
Proof.
  intros (Hl & Fl & Wl) (Hp & Fp & _) Hi.
  unfold isIndex in Hi. apply andb_true_iff in Hi. destruct Hi as [_ Hs].
  pose proof (HasSuffix_app l p "]" Hs) as Hlp.
  unfold good_segment, well_bracketed, isIndex in *.
  rewrite (HasPrefix_app l p "[" Hl), Hlp, free_of_app, Fl, Fp.
  repeat split.
  - intros H. apply append_eq_empty in H. tauto.
  - now destruct (GoStr.HasPrefix l "[").
  - destruct (GoStr.HasPrefix l "["), (GoStr.HasSuffix l "]"); try reflexivity.
    discriminate Wl.
Qed.

Lemma flatten_piece_good (S : list string) (p : string) :
  Forall good_segment S -> good_segment p ->
  Forall good_segment (flatten_piece S p).
Proof.
  intros HS Hp. destruct (exists_last_or_nil _ S) as [->|(S0 & l & ->)].
  - rewrite flatten_piece_nil by apply Hp. now constructor.
  - rewrite flatten_piece_snoc by apply Hp.
    apply Forall_app in HS. destruct HS as [HS0 Hl]. inversion Hl; subst.
    destruct (isIndex p) eqn:E.
    + apply Forall_app. split; [exact HS0|].
      constructor; [|constructor]. now apply good_segment_glue.
    + apply Forall_app. split; [|now constructor].
      apply Forall_app. split; assumption.
Qed.

Lemma fold_flatten_piece_good (ps np : list string) :
  Forall good_segment np -> Forall good_segment ps ->
  Forall good_segment (fold_left flatten_piece ps np).
Proof.
  revert np. induction ps as [|p ps IH]; intros np Hnp Hps; [exact Hnp|].
  inversion Hps; subst. cbn [fold_left]. apply IH; [|assumption].
  now apply flatten_piece_good.
Qed.

Lemma flatten_piece_glued (N : list string) (l p : string) :
  good_segment l -> good_segment p -> isIndex p = true ->
  flatten_piece N (l ++ p) = flatten_piece (flatten_piece N l) p.
Proof.
  intros Hl Hp Hi.
  destruct (good_segment_glue l p Hl Hp Hi) as [(Hlp & _) Hidx].
  destruct (exists_last_or_nil _ N) as [->|(N0 & n & ->)].
  - rewrite !flatten_piece_nil by (exact Hlp || apply Hl).
    change [l] with ([] ++ [l]).
    rewrite (flatten_piece_snoc [] l p) by apply Hp. now rewrite Hi.
  - rewrite (flatten_piece_snoc N0 n (l ++ p)) by exact Hlp.
    rewrite (flatten_piece_snoc N0 n l) by apply Hl. rewrite Hidx.
    destruct (isIndex l).
    + rewrite flatten_piece_snoc by apply Hp. now rewrite Hi, append_assoc.
    + rewrite flatten_piece_snoc by apply Hp. now rewrite Hi.
Qed.

(** Flattening the segments of good pieces again is flattening the pieces. *)
Lemma fold_flatten_piece_twice (ps : list string) :
  Forall good_segment ps ->
  forall np,
    fold_left flatten_piece (fold_left flatten_piece ps []) np
    = fold_left flatten_piece ps np.
Proof.
  induction ps as [|p ps IH] using rev_ind; intros Hps np; [reflexivity|].
  apply Forall_app in Hps. destruct Hps as [Hps Hp]. inversion Hp; subst.
  specialize (IH Hps).
  assert (HS : Forall good_segment (fold_left flatten_piece ps []))
    by (apply fold_flatten_piece_good; [constructor | exact Hps]).
  rewrite !fold_left_app. cbn [fold_left]. rewrite <- (IH np).
  destruct (exists_last_or_nil _ (fold_left flatten_piece ps []))
    as [ES|(S0 & l & ES)]; rewrite ES in *.
  - rewrite flatten_piece_nil by (apply H1). reflexivity.
  - apply Forall_app in HS. destruct HS as [_ Hl]. inversion Hl; subst.
    rewrite flatten_piece_snoc by apply H1.
    destruct (isIndex p) eqn:E.
    + rewrite !fold_left_app. cbn [fold_left]. now apply flatten_piece_glued.
    + now rewrite fold_left_app.
Qed.

Lemma filter_good_segments (S : list string) :
  Forall good_segment S ->
  filter (fun p => negb (String.eqb p CurrentField)) S = S.
Proof.
  induction 1 as [|s S (Hs & _) _ IH]; cbn [filter]; [reflexivity|].
  apply String.eqb_neq in Hs. unfold CurrentField at 1. rewrite Hs.
  cbn [negb]. now rewrite IH.
Qed.

Lemma flatten_pieces_of_Join (S : list string) :
  Forall good_segment S -> flatten_pieces [GoStr.Join S "."] = S.
Proof.
  intros HS. unfold flatten_pieces. cbn [map concat]. rewrite app_nil_r.
  destruct S as [|s S]; [reflexivity|].
  rewrite Split_Join; [now apply filter_good_segments | discriminate |].
  eapply Forall_impl; [|exact HS]. intros x Hx. apply Hx.
Qed.

Lemma flatten_pieces_good (q : list string) :
  Forall (fun piece => well_bracketed piece = true) (flatten_pieces q) ->
  Forall good_segment (flatten_pieces q).
Proof.
  intros Hw. pose proof (flatten_pieces_spec q) as Hs.
  rewrite Forall_forall in *. intros x Hx.
  destruct (Hs x Hx) as [Hne Hf]. repeat split; auto.
Qed.

(** X13.  Prefixing in two steps is prefixing in one: for fragments [q]
    whose pieces are well bracketed, the flattened path of [q] used as the last
    fragment after [p] flattens to what [p] followed by [q] flattens to; in
    particular flattening a flattened path changes nothing.  The pieces have
    to be well bracketed: the piece "[a" followed by "[0]" is a case where the
    two ways differ. *)
Theorem flatten_in_two_steps (p q : list string) :
  Forall (fun piece => well_bracketed piece = true) (flatten_pieces q) ->
  flatten (p ++ [flatten q]) = flatten (p ++ q)
  /\ flatten [flatten q] = flatten q
  /\ flatten ["x"; flatten ["[a"; "[0]"]] <> flatten ["x"; "[a"; "[0]"].
Proof.
  intros Hw. pose proof (flatten_pieces_good q Hw) as Hq.
  assert (HS : Forall good_segment (fold_left flatten_piece (flatten_pieces q) []))
    by (apply fold_flatten_piece_good; [constructor | exact Hq]).
  assert (Hgen : forall p0, flatten (p0 ++ [flatten q]) = flatten (p0 ++ q)).
  { intros p0. rewrite !flatten_by_pieces, !flatten_pieces_app.
    rewrite (flatten_pieces_of_Join _ HS).
    rewrite !fold_left_app. now rewrite fold_flatten_piece_twice. }
  split; [apply Hgen|]. split; [apply (Hgen [])|]. discriminate.
Qed.

(** The path of [ViaField("foo")] after [ViaIndex(0)] on the path bar. *)
Lemma flatten_in_two_steps_witness :
  Forall (fun piece => well_bracketed piece = true) (flatten_pieces ["[0]"; "bar"])
  /\ flatten (["foo"] ++ [flatten ["[0]"; "bar"]]) = "foo[0].bar".
Proof.
  assert (Hw : Forall (fun piece => well_bracketed piece = true)
                      (flatten_pieces ["[0]"; "bar"]))
    by (repeat constructor).
  split; [exact Hw|].
  rewrite (proj1 (flatten_in_two_steps ["foo"] ["[0]"; "bar"] Hw)). reflexivity.
Defined.

(** X14.  The current field adds nothing to a path, wherever it stands: a
    fragment equal to [CurrentField] can be left out. *)
Theorem flatten_skips_CurrentField (p q : list string) :
  flatten (p ++ CurrentField :: q) = flatten (p ++ q).
Proof.
  rewrite !flatten_by_pieces.
  change (CurrentField :: q) with ([CurrentField] ++ q).
  now rewrite !flatten_pieces_app.
Qed.

Lemma flatten_piece_plain (S : list string) (p : string) :
  Forall (fun s => s <> "" /\ free_of "." s = true) S ->
  p <> "" /\ free_of "." p = true ->
  Forall (fun s => s <> "" /\ free_of "." s = true) (flatten_piece S p).
Proof.
  intros HS [Hp Fp]. destruct (exists_last_or_nil _ S) as [->|(S0 & l & ->)].
  - rewrite flatten_piece_nil by exact Hp. now repeat constructor.
  - rewrite flatten_piece_snoc by exact Hp.
    apply Forall_app in HS. destruct HS as [HS0 Hl]. inversion Hl as [|? ? [Hl1 Hl2] _]; subst.
    destruct (isIndex p).
    + apply Forall_app. split; [exact HS0|]. constructor; [|constructor]. split.
      * intros H. apply append_eq_empty in H. tauto.
      * now rewrite free_of_app, Hl2, Fp.
    + apply Forall_app. split; [apply Forall_app; now split | now repeat constructor].
Qed.

Lemma fold_flatten_piece_plain (ps np : list string) :
  Forall (fun s => s <> "" /\ free_of "." s = true) np ->
  Forall (fun s => s <> "" /\ free_of "." s = true) ps ->
  Forall (fun s => s <> "" /\ free_of "." s = true) (fold_left flatten_piece ps np).
Proof.
  revert np. induction ps as [|p ps IH]; intros np Hnp Hps; [exact Hnp|].
  inversion Hps; subst. cbn [fold_left]. apply IH; [|assumption].
  now apply flatten_piece_plain.
Qed.

(** X15.  A flattened path is empty, or it splits on dots into segments none
    of which is empty: it neither begins nor ends with a dot and has no two
    dots in a row. *)
Theorem flatten_has_no_empty_segment (path : list string) :
  flatten path = ""
  \/ Forall (fun s => s <> "") (GoStr.Split (flatten path) ".").
Proof.
  rewrite flatten_by_pieces.
  assert (HS : Forall (fun s => s <> "" /\ free_of "." s = true)
                 (fold_left flatten_piece (flatten_pieces path) []))
    by (apply fold_flatten_piece_plain; [constructor | apply flatten_pieces_spec]).
  destruct (fold_left flatten_piece (flatten_pieces path) []) as [|s S];
    [now left | right].
  rewrite Split_Join; [| discriminate |];
    (eapply Forall_impl; [|exact HS]); intros x Hx; apply Hx.
Qed.

(** ** Index and key markers *)

Lemma string_of_uint_free (d : Decimal.uint) :
  free_of "." (NilEmpty.string_of_uint d) = true.
Proof. induction d; simpl; auto. Qed.

Lemma itoa_free (i : Z) : free_of "." (GoStr.itoa i) = true.
Proof.
  unfold GoStr.itoa, NilZero.string_of_int, NilZero.string_of_uint.
  destruct (Z.to_int i) as [d|d]; destruct d; simpl;
    try reflexivity; apply string_of_uint_free.
Qed.

Lemma flatten_marker_between (field m old : string) :
  field <> "" -> free_of "." field = true ->
  m <> "" -> free_of "." m = true -> isIndex m = true ->
  old <> "" -> free_of "." old = true -> isIndex old = false ->
  flatten [field; flatten [m; old]] = (field ++ m ++ "." ++ old)%string.
Proof.
  intros Hf Ff Hm Fm Im Ho Fo Io.
  assert (Hinner : flatten [m; old] = (m ++ String "." old)%string).
  { rewrite flatten_by_pieces. unfold flatten_pieces. cbn [map concat].
    rewrite (Split_free m "." Fm), (Split_free old "." Fo). cbn [app filter].
    apply String.eqb_neq in Hm, Ho. unfold CurrentField. rewrite Hm, Ho.
    cbn [negb fold_left]. apply String.eqb_neq in Hm, Ho.
    rewrite (flatten_piece_nil m Hm). change [m] with ([] ++ [m]).
    rewrite (flatten_piece_snoc [] m old Ho), Io. reflexivity. }
  rewrite Hinner, flatten_by_pieces. unfold flatten_pieces. cbn [map concat].
  rewrite (Split_free field "." Ff), (Split_app_sep m old "." Fm),
    (Split_free old "." Fo).
  cbn [app filter].
  apply String.eqb_neq in Hf, Hm, Ho. unfold CurrentField. rewrite Hf, Hm, Ho.
  cbn [negb fold_left]. apply String.eqb_neq in Hf, Hm, Ho.
  rewrite (flatten_piece_nil field Hf). change [field] with ([] ++ [field]).
  rewrite (flatten_piece_snoc [] field m Hm), Im.
  rewrite (flatten_piece_snoc [] (field ++ m) old Ho), Io.
  cbn [app GoStr.Join]. now rewrite append_assoc.
Qed.

(** X16.  What [asIndex] and [asKey] make is an index or key marker for
    [flatten]; and the path that a field name gives after an index, or after
    a key without a dot, on a path [old] is the field, the marker, a dot and
    [old], for a field and an [old] that are single plain segments. *)
Theorem markers_attach_to_the_field (field old : string) :
  field <> "" -> free_of "." field = true ->
  old <> "" -> free_of "." old = true -> isIndex old = false ->
  (forall i, isIndex (asIndex i) = true
             /\ flatten [field; flatten [asIndex i; old]]
                = (field ++ asIndex i ++ "." ++ old)%string)
  /\ (forall k, isIndex (asKey k) = true
                /\ (free_of "." k = true ->
                    flatten [field; flatten [asKey k; old]]
                    = (field ++ asKey k ++ "." ++ old)%string)).
Proof.
  intros Hf Ff Ho Fo Io.
  assert (HI : forall s, isIndex ("[" ++ s ++ "]") = true).
  { intros s. apply isIndex_iff. split; [now exists (s ++ "]")%string|].
    exists ("[" ++ s)%string. now rewrite append_assoc. }
  assert (HF : forall s, free_of "." s = true -> free_of "." ("[" ++ s ++ "]") = true).
  { intros s Hs. now rewrite !free_of_app, Hs. }
  split.
  - intros i. split; [apply HI|].
    apply flatten_marker_between; auto; [discriminate | apply HF, itoa_free | apply HI].
  - intros k. split; [apply HI|]. intros Fk.
    apply flatten_marker_between; auto; [discriminate | now apply HF | apply HI].
Qed.

(** The path of [ViaFieldIndex("bar", 0)] on the path foo. *)
Lemma markers_attach_to_the_field_witness :
  ("bar" <> "" /\ free_of "." "bar" = true
   /\ "foo" <> "" /\ free_of "." "foo" = true /\ isIndex "foo" = false)
  /\ flatten ["bar"; flatten [asIndex 0; "foo"]] = "bar[0].foo"
  /\ free_of "." "A" = true
  /\ flatten ["bar"; flatten [asKey "A"; "foo"]] = "bar[A].foo".
Proof.
  assert (H := markers_attach_to_the_field "bar" "foo"
                 ltac:(discriminate) eq_refl ltac:(discriminate) eq_refl eq_refl).
  split; [repeat split; discriminate|].
  split; [exact (proj2 (proj1 H 0%Z))|].
  split; [reflexivity|].
  exact (proj2 (proj2 H "A") eq_refl).
Defined.

(** ** The key *)

Lemma hyphen_splits_once (m1 m2 d1 d2 : string) :
  free_of "-" m1 = true -> free_of "-" m2 = true ->
  (m1 ++ "-" ++ d1)%string = (m2 ++ "-" ++ d2)%string -> m1 = m2 /\ d1 = d2.
Proof.
  revert m2. induction m1 as [|c m1 IH]; intros [|c2 m2] F1 F2 H; simpl in *.
  - injection H as H. now split.
  - injection H as Hc _. subst c2. discriminate F2.
  - injection H as Hc _. subst c. discriminate F1.
  - injection H as Hc H. subst c2.
    apply andb_true_iff in F1, F2.
    destruct (IH m2 (proj2 F1) (proj2 F2) H) as [-> ->]. now split.
Qed.

(** X17.  For messages without a hyphen the key tells leaves apart: two
    errors with one key have one message and the same details. *)
Theorem key_separates_hyphen_free_messages (a b : FieldError) :
  free_of "-" (Message a) = true -> free_of "-" (Message b) = true ->
  key (Some a) = key (Some b) ->
  Message a = Message b /\ Details a = Details b.
Proof.
  intros Fa Fb H. unfold key in H. injection H as H.
  now apply hyphen_splits_once.
Qed.

(** Two leaves of [ErrMissingField], which differ in their paths only. *)
Lemma key_separates_hyphen_free_messages_witness :
  let a := mkFieldError "missing field(s)" ["foo"] "" [] in
  let b := mkFieldError "missing field(s)" ["bar"] "" [] in
  (free_of "-" (Message a) = true /\ free_of "-" (Message b) = true
   /\ key (Some a) = key (Some b))
  /\ Message a = Message b /\ Details a = Details b.
Proof.
  cbv zeta. split; [repeat split|].
  apply (key_separates_hyphen_free_messages
           (mkFieldError "missing field(s)" ["foo"] "" [])
           (mkFieldError "missing field(s)" ["bar"] "" [])); reflexivity.
Defined.

(** ** The condition set *)

Module ConditionSetFacts.

Import ConditionSets.

Lemma contains_In (ct : list ConditionType) (t : ConditionType) :
  contains ct t = true <-> In t ct.
Proof.
  induction ct as [|c ct IH]; simpl; [split; [discriminate | tauto]|].
  destruct (String.eqb_spec c t) as [->|Hne].
  - split; auto.
  - rewrite IH. split; [auto | intros [H|H]; [contradiction | exact H]].
Qed.

Lemma newConditionSet_loop (happy0 : ConditionType) (ds deps : list ConditionType) :
  NoDup deps -> ~ In happy0 deps ->
  let deps' :=
    fold_left
      (fun deps d => if String.eqb d happy0 || contains deps d then deps
                     else deps ++ [d]) ds deps in
  NoDup deps' /\ ~ In happy0 deps'
  /\ (forall d, In d deps' <-> In d deps \/ (In d ds /\ d <> happy0)).
Proof.
  revert deps. induction ds as [|d ds IH]; intros deps Hnd Hh; cbn [fold_left].
  - cbv zeta. repeat split; auto; simpl; tauto.
  - destruct (String.eqb_spec d happy0) as [->|Hne]; cbn [orb].
    + destruct (IH deps Hnd Hh) as (H1 & H2 & H3). cbv zeta.
      split; [exact H1|]. split; [exact H2|].
      intros x. rewrite H3. simpl. split; [tauto|].
      intros [H|[[<-|H] Hx]]; tauto.
    + destruct (contains deps d) eqn:E.
      * apply contains_In in E.
        destruct (IH deps Hnd Hh) as (H1 & H2 & H3). cbv zeta.
        split; [exact H1|]. split; [exact H2|].
        intros x. rewrite H3. simpl. split; [tauto|].
        intros [H|[[<-|H] Hx]]; tauto.
      * assert (Hd : ~ In d deps)
          by (intros Hd; apply contains_In in Hd; congruence).
        destruct (IH (deps ++ [d])) as (H1 & H2 & H3).
        { apply Permutation_NoDup with (l := d :: deps);
            [apply Permutation_cons_append | now constructor]. }
        { intros H. apply in_app_or in H. destruct H as [H|[H|[]]]; auto. }
        cbv zeta. split; [exact H1|]. split; [exact H2|].
        intros x. rewrite H3, in_app_iff. simpl.
        destruct (string_dec d x) as [<-|Hx]; tauto.
Qed.

(** X18.  The dependents of the set that [newConditionSet] returns are the
    condition types given other than the happy one, each once: the happy
    condition is never a dependent of itself. *)
Theorem newConditionSet_dependents (happy0 : ConditionType)
  (ds : list ConditionType) :
  happy (newConditionSet happy0 ds) = happy0
  /\ NoDup (dependents (newConditionSet happy0 ds))
  /\ ~ In happy0 (dependents (newConditionSet happy0 ds))
  /\ (forall d, In d (dependents (newConditionSet happy0 ds))
                <-> In d ds /\ d <> happy0).
Proof.
  split; [reflexivity|].
  destruct (newConditionSet_loop happy0 ds [] (NoDup_nil _) (fun H => H))
    as (H1 & H2 & H3).
  split; [exact H1|]. split; [exact H2|].
  intros d. unfold newConditionSet. cbn [dependents]. rewrite H3. simpl. tauto.
Qed.

End ConditionSetFacts.

(* ================================================================== *)
(** ** [ViaField] after [Also], and [Also] after [ViaField] *)

Section PrefixAndCombine.

Context {rt : GoRuntime}.

(** On an accumulator with one normalized entry [ViaField] returns the
    accumulator that holds the zero value under the key of that entry. *)
Lemma ViaField_one_entry (fe : FieldError) (prefix : list string)
  (k : string) (e : FieldError) :
  getNormalizedErrors fe = [(k, e)] ->
  ViaField (Some fe) prefix = Ok (Some (junk (key_of e))).
Proof.
  intros H. unfold ViaField. rewrite H, map_range_one. cbn [fold_left].
  unfold ViaField_entry. cbn [bind snd].
  now rewrite (Also_hollow zeroFieldError _ getNormalizedErrors_zero).
Qed.

Lemma Also_some_some (fa fb : FieldError) :
  exists c, Also (Some fa) [Some fb] = Ok (Some c).
Proof.
  destruct (map_get (key_of fb) (getNormalizedErrors fa)) as [v|] eqn:E.
  - rewrite (Also_present_key _ _ _ E). eauto.
  - rewrite (Also_absent_key _ _ E). eauto.
Qed.

(** C6 (code defect).  For all accumulators [a] and [b] that are not nil and
    every prefix [x], [a.Also(b).ViaField(x...)] and
    [a.ViaField(x...).Also(b.ViaField(x...))] are accumulators with no
    normalized entry, which render as the empty string: neither is the
    flattened, combined result.  On the two leaves and the prefix of the case
    "simple" of [TestAlso], for which the test expects the two lines
    "also this: foo[A][B][C].woo" and "hear me roar: foo[A][B][C].bar", the
    first is the accumulator that holds one zero value under the key of [a]
    and the second the accumulator that holds one zero value under the key
    "-": the two are not the same accumulator either. *)
Theorem ViaField_and_Also_hold_no_entry :
  (forall (fa fb : FieldError) (x : list string),
     exists r1 r2,
       (r <- Also (Some fa) [Some fb] ;; ViaField r x) = Ok (Some r1)
       /\ (ra <- ViaField (Some fa) x ;; rb <- ViaField (Some fb) x ;;
           Also ra [rb]) = Ok (Some r2)
       /\ getNormalizedErrors r1 = [] /\ getNormalizedErrors r2 = []
       /\ Error (Some r1) = Ok "" /\ Error (Some r2) = Ok "")
  /\ (let a := mkFieldError "hear me roar" ["bar"] "" [] in
      let b := mkFieldError "also this" ["woo"] "" [] in
      let x := ["foo"; "[A]"; "[B]"; "[C]"] in
      (r <- Also (Some a) [Some b] ;; ViaField r x)
      = Ok (Some (junk "hear me roar-"))
      /\ (ra <- ViaField (Some a) x ;; rb <- ViaField (Some b) x ;;
          Also ra [rb])
         = Ok (Some (junk "-"))
      /\ junk "hear me roar-" <> junk "-"
      /\ Error (Some (junk "hear me roar-")) = Ok ""
      /\ Error (Some (junk "-")) = Ok "").
Proof.
  split.
  - intros fa fb x.
    destruct (Also_some_some fa fb) as (c & Hc).
    destruct (ViaField_some c x) as (r1 & Hr1 & Hn1).
    destruct (ViaField_some fa x) as (ra & Hra & Hna).
    destruct (ViaField_some fb x) as (rb & Hrb & Hnb).
    exists r1, (junk (key_of rb)).
    rewrite Hc, Hra, Hrb. cbn [bind]. rewrite Hr1, (Also_hollow ra rb Hna).
    repeat split; auto using getNormalizedErrors_junk.
    + now apply Error_hollow.
    + apply Error_hollow, getNormalizedErrors_junk.
  - cbv zeta.
    assert (Ha : forall m ps, m <> "" ->
               getNormalizedErrors (mkFieldError m ps "" [])
               = [(key_of (mkFieldError m ps "" []), mkFieldError m ps "" [])]).
    { intros m ps Hm. now rewrite getNormalizedErrors_leaf, normalize_leaf_message. }
    split; [|split; [|split; [|split]]].
    + destruct (Also_one_entry _ [mkFieldError "also this" ["woo"] "" []] _ _
                  (Ha "hear me roar" ["bar"] ltac:(discriminate)))
        as (c & Hc & Hn).
      cbn [map] in Hc. rewrite Hc. cbn [bind].
      now rewrite (ViaField_one_entry c _ _ _ Hn).
    + rewrite (ViaField_one_entry _ _ _ _ (Ha "hear me roar" ["bar"] ltac:(discriminate))).
      rewrite (ViaField_one_entry _ _ _ _ (Ha "also this" ["woo"] ltac:(discriminate))).
      cbn [bind]. now rewrite Also_hollow by apply getNormalizedErrors_junk.
    + discriminate.
    + apply Error_hollow, getNormalizedErrors_junk.
    + apply Error_hollow, getNormalizedErrors_junk.
Qed.

End PrefixAndCombine.
